(** * AddressManagement: CSV validation, hierarchy extraction and ordered load

    A shallow embedding of [src/pages/AddressManagement.tsx]: the [complete]
    callback of [parseCSV] (required-column check, per-row checks, summary
    counts) and [uploadData] (guard, extraction of the four collections,
    clearing of the four tables, inserts in dependency order, barangays in
    batches).  React state is an explicit record, the calls to the store,
    the toasts and the state setters are logged in issue order, and thrown
    values are an explicit abrupt completion caught by [tryCatch]. *)

From Stdlib Require Import String Ascii List Arith PeanoNat Bool Lia.
From Stdlib Require Import Permutation.
From Stdlib Require Decimal DecimalString DecimalNat.
Import ListNotations.
Open Scope string_scope.
Open Scope list_scope.

(** ** Data model *)

(** [type AddressRow]: eight string fields. *)
Record AddressRow := mkAddressRow {
  regionCode : string;
  regionName : string;
  provinceCode : string;
  provinceName : string;
  lguCode : string;
  lguName : string;
  barangayCode : string;
  barangayName : string
}.

(** The object literals built by [uploadData], one shape per table. *)
Module Region.
Record t := mk { code : string; name : string }.
End Region.

Module Province.
Record t := mk { code : string; name : string; region_code : string }.
End Province.

Module Lgu.
Record t := mk { code : string; name : string; province_code : string }.
End Lgu.

Module Barangay.
Record t := mk { code : string; name : string;
                 province_code : string; lgu_code : string }.
End Barangay.

(** [Papa.ParseError], kept only as data carried in [parseResults]. *)
Record ParseError := mkParseError { pe_row : nat; pe_message : string }.

(** ['idle' | 'validating' | 'uploading' | 'success' | 'error']. *)
Inductive UploadStatus := idle | validating | uploading | success | error.

Record Stats := mkStats {
  regions : nat; provinces : nat; lgus : nat; barangays : nat
}.

Record Validation := mkValidation {
  valid : bool; errors : list string; stats : Stats
}.

Record ParseResults := mkParseResults {
  rows : list AddressRow; parse_errors : list ParseError
}.

(** The pieces of component state that [parseCSV] and [uploadData] read and
    write ([isDragging] and [file] only drive the rendering). *)
Record AppState := mkAppState {
  parseResults : ParseResults;
  uploadStatus : UploadStatus;
  validation : Validation
}.

Definition zeroStats : Stats := mkStats 0 0 0 0.

(** The initial [useState] values. *)
Definition initialState : AppState :=
  mkAppState (mkParseResults [] []) idle (mkValidation false [] zeroStats).

(** ** JavaScript built-ins used by the code *)

(** Template-literal rendering of a non-negative integer. *)
Definition nat_to_string (n : nat) : string :=
  DecimalString.NilEmpty.string_of_uint (Nat.to_uint n).

(** [Array.prototype.join]. *)
Fixpoint join (sep : string) (l : list string) : string :=
  match l with
  | [] => ""
  | [x] => x
  | x :: rest => x ++ sep ++ join sep rest
  end.

(** [Array.prototype.includes] on strings. *)
Definition includes (l : list string) (x : string) : bool :=
  existsb (String.eqb x) l.

(** [Array.prototype.slice(start, end)] for [0 <= start <= end]. *)
Definition slice {A} (start stop : nat) (l : list A) : list A :=
  firstn (stop - start) (skipn start l).

(** [Map.prototype.set] on an insertion-ordered map: an existing key keeps
    its position and takes the new value, a new key goes to the end. *)
Fixpoint map_set {V} (k : string) (v : V) (m : list (string * V))
  : list (string * V) :=
  match m with
  | [] => [(k, v)]
  | (k', v') :: m' =>
      if String.eqb k' k then (k', v) :: m' else (k', v') :: map_set k v m'
  end.

(** One step of the constructor: [map.set(key, value)] for an entry
    [[key, value]]. *)
Definition set_entry {V} (m : list (string * V)) (kv : string * V)
  : list (string * V) :=
  map_set (fst kv) (snd kv) m.

(** [new Map(entries)]: the entries are [set] one after the other. *)
Definition new_Map {V} (entries : list (string * V)) : list (string * V) :=
  fold_left set_entry entries [].

(** [Array.from(map).map(([_, value]) => value)]. *)
Definition map_values {V} (m : list (string * V)) : list V := map snd m.

(** [Set.prototype.add] and [new Set(iterable)] on strings; [size] is the
    length of the list. *)
Definition set_add (x : string) (s : list string) : list string :=
  if includes s x then s else s ++ [x].

Definition new_Set (l : list string) : list string :=
  fold_left (fun s x => set_add x s) l [].

(** [array.forEach((x, index) => ...)] with the closure's captured mutable
    state [St] threaded through. *)
Fixpoint forEach_from {A St} (f : A -> nat -> St -> St) (l : list A)
  (index : nat) (s : St) : St :=
  match l with
  | [] => s
  | x :: l' => forEach_from f l' (S index) (f x index s)
  end.

Definition forEach {A St} (f : A -> nat -> St -> St) (l : list A) (s : St)
  : St :=
  forEach_from f l 0 s.

(** ** Effects: state setters, toasts, console and store calls *)

(** A thrown value: an [Error] instance with its message, or anything else. *)
Inductive Thrown := ErrorObj (message : string) | NonError.

(** The argument of [insert]. *)
Inductive Payload :=
| PRegions (l : list Region.t)
| PProvinces (l : list Province.t)
| PLgus (l : list Lgu.t)
| PBarangays (l : list Barangay.t).

(** [supabase.from(table).delete().neq('id', 0)] and
    [supabase.from(table).insert(payload)]. *)
Inductive StoreCall :=
| Delete (table : string)
| Insert (table : string) (payload : Payload).

(** What awaiting a store call gives: the promise resolves to an object
    whose [error] is null or carries a message, or the promise rejects. *)
Inductive Response :=
| Resolved (err : option string)
| Rejected (e : Thrown).

(** The store is any function of the calls issued so far and the call. *)
Definition Store := list StoreCall -> StoreCall -> Response.

Inductive ToastKind := toast_error | toast_info | toast_success.

Inductive Event :=
| EvSetUploadStatus (s : UploadStatus)
| EvSetValidation (v : Validation)
| EvSetParseResults (p : ParseResults)
| EvToast (k : ToastKind) (msg : string)
| EvConsoleError (e : Thrown)
| EvCall (c : StoreCall) (r : Response).

(** The world: the component state and the log of effects, oldest first. *)
Record World := mkWorld { state : AppState; log : list Event }.

(** How a computation ends: normally, by a throw, or (for the bounded
    model of the [for] loop only) with its bound exhausted. *)
Inductive Completion (A : Type) :=
| Normal (a : A)
| Abrupt (e : Thrown)
| Exhausted.
Arguments Normal {A} a.
Arguments Abrupt {A} e.
Arguments Exhausted {A}.

Definition Eff (A : Type) : Type := World -> Completion A * World.

Definition ret {A} (a : A) : Eff A := fun w => (Normal a, w).

Definition bind {A B} (m : Eff A) (k : A -> Eff B) : Eff B :=
  fun w =>
    match m w with
    | (Normal a, w') => k a w'
    | (Abrupt e, w') => (Abrupt e, w')
    | (Exhausted, w') => (Exhausted, w')
    end.

Definition throw {A} (e : Thrown) : Eff A := fun w => (Abrupt e, w).

(** [try { body } catch (error) { handler }]. *)
Definition tryCatch {A} (body : Eff A) (handler : Thrown -> Eff A) : Eff A :=
  fun w =>
    match body w with
    | (Abrupt e, w') => handler e w'
    | r => r
    end.

Declare Scope eff_scope.
Delimit Scope eff_scope with eff.
Notation "x <- m ;; k" := (bind m (fun x => k))
  (at level 100, m at next level, right associativity) : eff_scope.
Notation "m ;; k" := (bind m (fun _ => k))
  (at level 100, right associativity) : eff_scope.
Open Scope eff_scope.

Definition emit (e : Event) : Eff unit :=
  fun w => (Normal tt, mkWorld (state w) (log w ++ [e])).

Definition getState : Eff AppState := fun w => (Normal (state w), w).

Definition setUploadStatus (s : UploadStatus) : Eff unit :=
  fun w =>
    (Normal tt,
     mkWorld (mkAppState (parseResults (state w)) s (validation (state w)))
             (log w ++ [EvSetUploadStatus s])).

Definition setValidation (v : Validation) : Eff unit :=
  fun w =>
    (Normal tt,
     mkWorld (mkAppState (parseResults (state w)) (uploadStatus (state w)) v)
             (log w ++ [EvSetValidation v])).

Definition setParseResults (p : ParseResults) : Eff unit :=
  fun w =>
    (Normal tt,
     mkWorld (mkAppState p (uploadStatus (state w)) (validation (state w)))
             (log w ++ [EvSetParseResults p])).

Definition toast (k : ToastKind) (msg : string) : Eff unit :=
  emit (EvToast k msg).

Definition console_error (e : Thrown) : Eff unit := emit (EvConsoleError e).

(** The store calls of a log, in issue order. *)
Fixpoint calls (l : list Event) : list StoreCall :=
  match l with
  | [] => []
  | EvCall c _ :: l' => c :: calls l'
  | _ :: l' => calls l'
  end.

(** [await <store call>]: the call is issued and logged with its response;
    a resolved promise yields its [error], a rejected one throws. *)
Definition await (store : Store) (c : StoreCall) : Eff (option string) :=
  fun w =>
    let r := store (calls (log w)) c in
    let w' := mkWorld (state w) (log w ++ [EvCall c r]) in
    match r with
    | Resolved err => (Normal err, w')
    | Rejected e => (Abrupt e, w')
    end.

(** ** [parseCSV]: the [complete] callback *)

Definition requiredColumns : list string :=
  ["regionCode"; "regionName"; "provinceCode"; "provinceName";
   "lguCode"; "lguName"; "barangayCode"; "barangayName"].

(** [row[col as keyof AddressRow]]; a key that is no field is [undefined]. *)
Definition getField (col : string) (row : AddressRow) : option string :=
  if col =? "regionCode" then Some (regionCode row)
  else if col =? "regionName" then Some (regionName row)
  else if col =? "provinceCode" then Some (provinceCode row)
  else if col =? "provinceName" then Some (provinceName row)
  else if col =? "lguCode" then Some (lguCode row)
  else if col =? "lguName" then Some (lguName row)
  else if col =? "barangayCode" then Some (barangayCode row)
  else if col =? "barangayName" then Some (barangayName row)
  else None.

(** [!v] on a string or [undefined]. *)
Definition falsy (v : option string) : bool :=
  match v with
  | None => true
  | Some s => s =? ""
  end.

Definition missingValueMessage (rowNumber : nat) (col : string) : string :=
  "Row " ++ nat_to_string rowNumber ++ ": Missing value for " ++ col.

(** The body of [data.forEach((row, index) => ...)], with
    [validationErrors] threaded through. *)
Definition checkRow (row : AddressRow) (index : nat)
  (validationErrors : list string) : list string :=
  let rowNumber := index + 2 in
  forEach
    (fun col _ errs =>
       if falsy (getField col row)
       then errs ++ [missingValueMessage rowNumber col]
       else errs)
    requiredColumns validationErrors.

Definition validationErrorsOf (data : list AddressRow) : list string :=
  forEach checkRow data [].

(** [meta.fields || []] followed by the [filter] over [requiredColumns]. *)
Definition missingColumnsOf (fields : option (list string)) : list string :=
  let parsedColumns := match fields with Some f => f | None => [] end in
  filter (fun col => negb (includes parsedColumns col)) requiredColumns.

Definition statsOf (data : list AddressRow) : Stats :=
  let uniqueRegions := new_Set (map regionCode data) in
  let uniqueProvinces := new_Set (map provinceCode data) in
  let uniqueLgus := new_Set (map lguCode data) in
  let uniqueBarangays := new_Set (map barangayCode data) in
  mkStats (length uniqueRegions) (length uniqueProvinces)
          (length uniqueLgus) (length uniqueBarangays).

(** [complete: function(results)] with [results = { data, errors, meta }]. *)
Definition complete (data : list AddressRow) (errs : list ParseError)
  (fields : option (list string)) : Eff unit :=
  let missingColumns := missingColumnsOf fields in
  if (0 <? length missingColumns)%nat then
    setUploadStatus error ;;
    setValidation
      (mkValidation false
         [("Missing required columns: " ++ join ", " missingColumns)%string]
         zeroStats)
  else
    let validationErrors := validationErrorsOf data in
    let stats := statsOf data in
    setParseResults (mkParseResults data errs) ;;
    setValidation
      (mkValidation (length validationErrors =? 0)%nat validationErrors stats) ;;
    setUploadStatus (if (length validationErrors =? 0)%nat then idle else error).

(** What [Papa.parse] ends up calling: [complete] or [error]. *)
Inductive PapaOutcome :=
| PapaComplete (data : list AddressRow) (errs : list ParseError)
               (fields : option (list string))
| PapaError (message : string).

Definition parseCSV (outcome : PapaOutcome) : Eff unit :=
  setUploadStatus validating ;;
  match outcome with
  | PapaComplete data errs fields => complete data errs fields
  | PapaError message =>
      toast toast_error ("Error parsing CSV file: " ++ message)%string ;;
      setUploadStatus error
  end.

(** ** [uploadData] *)

(** The four collections computed at the start of [uploadData]. *)
Definition regionsOf (rows : list AddressRow) : list Region.t :=
  map_values
    (new_Map
       (map (fun row => (regionCode row,
                         Region.mk (regionCode row) (regionName row)))
            rows)).

Definition provincesOf (rows : list AddressRow) : list Province.t :=
  map_values
    (new_Map
       (map (fun row => (provinceCode row,
                         Province.mk (provinceCode row) (provinceName row)
                                     (regionCode row)))
            rows)).

Definition lgusOf (rows : list AddressRow) : list Lgu.t :=
  map_values
    (new_Map
       (map (fun row => (lguCode row,
                         Lgu.mk (lguCode row) (lguName row)
                                (provinceCode row)))
            rows)).

Definition barangaysOf (rows : list AddressRow) : list Barangay.t :=
  map (fun row => Barangay.mk (barangayCode row) (barangayName row)
                              (provinceCode row) (lguCode row))
      rows.

Definition BATCH_SIZE : nat := 1000.

(** [const { error } = await ...insert(payload); if (error) throw new
    Error(prefix + error.message)]. *)
Definition insertOrThrow (store : Store) (table : string) (payload : Payload)
  (prefix : string) : Eff unit :=
  err <- await store (Insert table payload) ;;
  match err with
  | Some message => throw (ErrorObj (prefix ++ message)%string)
  | None => ret tt
  end.

(** [for (let i = 0; i < barangays.length; i += BATCH_SIZE) { ... }],
    started at [i] with at most [fuel] iterations; [i] is a multiple of
    [BATCH_SIZE], so [i/BATCH_SIZE] is the integer quotient. *)
Fixpoint insertBarangays (store : Store) (barangays : list Barangay.t)
  (fuel : nat) (i : nat) : Eff unit :=
  if (i <? length barangays)%nat then
    match fuel with
    | 0 => fun w => (Exhausted, w)
    | S fuel' =>
        let batch := slice i (i + BATCH_SIZE) barangays in
        insertOrThrow store "barangays" (PBarangays batch)
          ("Error inserting barangays batch "
             ++ nat_to_string (i / BATCH_SIZE + 1) ++ ": ")%string ;;
        insertBarangays store barangays fuel' (i + BATCH_SIZE)
    end
  else ret tt.

(** Step 1 of [uploadData]: the four tables are cleared, children first;
    what the awaited calls resolve to is not looked at. *)
Definition clearTables (store : Store) : Eff (option string) :=
  await store (Delete "barangays") ;;
  await store (Delete "lgus") ;;
  await store (Delete "provinces") ;;
  await store (Delete "regions").

(** Step 2 of [uploadData]: the collections are inserted, parents first. *)
Definition insertCollections (store : Store)
  (regions : list Region.t) (provinces : list Province.t)
  (lgus : list Lgu.t) (barangays : list Barangay.t) : Eff unit :=
  (if (0 <? length regions)%nat
   then insertOrThrow store "regions" (PRegions regions)
          "Error inserting regions: "
   else ret tt) ;;
  (if (0 <? length provinces)%nat
   then insertOrThrow store "provinces" (PProvinces provinces)
          "Error inserting provinces: "
   else ret tt) ;;
  (if (0 <? length lgus)%nat
   then insertOrThrow store "lgus" (PLgus lgus) "Error inserting LGUs: "
   else ret tt) ;;
  (if (0 <? length barangays)%nat
   then insertBarangays store barangays (length barangays) 0
   else ret tt).

Definition clearAndInsert (store : Store)
  (regions : list Region.t) (provinces : list Province.t)
  (lgus : list Lgu.t) (barangays : list Barangay.t) : Eff unit :=
  clearTables store ;;
  insertCollections store regions provinces lgus barangays.

Definition uploadData (store : Store) : Eff unit :=
  tryCatch
    (st <- getState ;;
     if negb (valid (validation st))
        || (length (rows (parseResults st)) =? 0)%nat
     then toast toast_error "Please upload a valid CSV file first"
     else
       setUploadStatus uploading ;;
       toast toast_info "Processing data, please wait..." ;;
       let regions := regionsOf (rows (parseResults st)) in
       let provinces := provincesOf (rows (parseResults st)) in
       let lgus := lgusOf (rows (parseResults st)) in
       let barangays := barangaysOf (rows (parseResults st)) in
       clearAndInsert store regions provinces lgus barangays ;;
       setUploadStatus success ;;
       toast toast_success "Address data updated successfully!")
    (fun e =>
       console_error e ;;
       setUploadStatus error ;;
       toast toast_error
         (match e with
          | ErrorObj message => message
          | NonError => "Failed to update address data"
          end)).

(** Running a computation from a state with an empty log. *)
Definition run {A} (m : Eff A) (st : AppState) : Completion A * World :=
  m (mkWorld st []).

Definition finalState {A} (m : Eff A) (st : AppState) : AppState :=
  state (snd (run m st)).

Definition trace {A} (m : Eff A) (st : AppState) : list Event :=
  log (snd (run m st)).

(** A store on which every call resolves without error. *)
Definition okStore : Store := fun _ _ => Resolved None.

Definition row1 : AddressRow :=
  mkAddressRow "01" "R1" "P1" "Prov1" "L1" "Lgu1" "B1" "Brgy1".

(** ** Facts about the built-ins *)

Lemma includes_In (l : list string) (x : string) :
  includes l x = true <-> In x l.
Proof.
  unfold includes. rewrite existsb_exists. split.
  - intros [y [Hy He]]. apply String.eqb_eq in He. now subst.
  - intros H. exists x. split; [assumption | apply String.eqb_refl].
Qed.

Lemma includes_not_In (l : list string) (x : string) :
  includes l x = false <-> ~ In x l.
Proof.
  rewrite <- includes_In. destruct (includes l x); split; congruence.
Qed.

(** *** Insertion-ordered maps *)

(** First binding of a key. *)
Fixpoint assoc {V} (k : string) (m : list (string * V)) : option V :=
  match m with
  | [] => None
  | (k', v) :: m' => if String.eqb k' k then Some v else assoc k m'
  end.

Section OrderedMap.
Context {V : Type}.
Implicit Types (m : list (string * V)) (k : string) (v : V).

Lemma assoc_map_set_same m k v : assoc k (map_set k v m) = Some v.
Proof.
  induction m as [|[k' v'] m IH]; simpl.
  - now rewrite String.eqb_refl.
  - destruct (String.eqb k' k) eqn:E; simpl; rewrite E; auto.
Qed.

Lemma assoc_map_set_other m k v k0 :
  k0 <> k -> assoc k0 (map_set k v m) = assoc k0 m.
Proof.
  intros Hne. induction m as [|[k' v'] m IH]; simpl.
  - destruct (String.eqb k k0) eqn:E; [|reflexivity].
    apply String.eqb_eq in E. congruence.
  - destruct (String.eqb k' k) eqn:E; simpl.
    + apply String.eqb_eq in E. subst k'.
      destruct (String.eqb k k0) eqn:E'; [|reflexivity].
      apply String.eqb_eq in E'. congruence.
    + now rewrite IH.
Qed.

Lemma keys_map_set m k v :
  map fst (map_set k v m) =
  if includes (map fst m) k then map fst m else map fst m ++ [k].
Proof.
  induction m as [|[k' v'] m IH]; simpl; [reflexivity|].
  unfold includes in *. simpl. rewrite (String.eqb_sym k k').
  destruct (String.eqb k' k); simpl; [reflexivity|].
  rewrite IH. now destruct (existsb (String.eqb k) (map fst m)).
Qed.

Lemma NoDup_map_set m k v :
  NoDup (map fst m) -> NoDup (map fst (map_set k v m)).
Proof.
  intros H. rewrite keys_map_set.
  destruct (includes (map fst m) k) eqn:E; [assumption|].
  apply includes_not_In in E.
  apply NoDup_rev in H. rewrite <- (rev_involutive (_ ++ _)).
  apply NoDup_rev. rewrite rev_app_distr. simpl.
  constructor; [|assumption]. now rewrite <- in_rev.
Qed.

Lemma assoc_app m1 m2 k :
  assoc k (m1 ++ m2) =
  match assoc k m1 with Some v => Some v | None => assoc k m2 end.
Proof.
  induction m1 as [|[k' v'] m1 IH]; simpl; [reflexivity|].
  now destruct (String.eqb k' k).
Qed.

Lemma NoDup_fold_set_entry entries m :
  NoDup (map fst m) -> NoDup (map fst (fold_left set_entry entries m)).
Proof.
  revert m. induction entries as [|[k v] es IH]; intros m H; simpl; auto.
  apply IH. now apply NoDup_map_set.
Qed.

(** After a run of [set]s a key is bound to the value of the last entry
    that carries it. *)
Lemma assoc_fold_set_entry entries m k :
  assoc k (fold_left set_entry entries m) =
  match assoc k (rev entries) with
  | Some v => Some v
  | None => assoc k m
  end.
Proof.
  revert m. induction entries as [|[k0 v0] es IH]; intros m; simpl; auto.
  rewrite IH, assoc_app. destruct (assoc k (rev es)); [reflexivity|].
  simpl. unfold set_entry at 1. simpl.
  destruct (String.eqb k0 k) eqn:E.
  - apply String.eqb_eq in E. subst. apply assoc_map_set_same.
  - apply assoc_map_set_other. intros ->. now rewrite String.eqb_refl in E.
Qed.

(** Values that carry their own key, as the records built by
    [uploadData] do. *)
Variable code : V -> string.

Definition keyed m : Prop := Forall (fun kv => code (snd kv) = fst kv) m.

Lemma keyed_map_set m k v : code v = k -> keyed m -> keyed (map_set k v m).
Proof.
  intros Hk H. induction H as [|[k' v'] m Hkv Hm IH]; simpl.
  - repeat constructor. exact Hk.
  - destruct (String.eqb k' k) eqn:E.
    + apply String.eqb_eq in E. subst k'. constructor; assumption.
    + constructor; assumption.
Qed.

Lemma keyed_fold_set_entry entries m :
  keyed entries -> keyed m -> keyed (fold_left set_entry entries m).
Proof.
  revert m. induction entries as [|[k v] es IH]; intros m He Hm; simpl; auto.
  inversion He; subst. apply IH; [assumption|].
  now apply keyed_map_set.
Qed.

Lemma keyed_codes m : keyed m -> map code (map_values m) = map fst m.
Proof.
  unfold map_values. induction 1 as [|[k v] m Hkv Hm IH]; simpl in *;
    congruence.
Qed.

Lemma keyed_find m c :
  keyed m ->
  find (fun x => String.eqb (code x) c) (map_values m) = assoc c m.
Proof.
  unfold map_values. induction 1 as [|[k v] m Hkv Hm IH]; simpl; auto.
  simpl in Hkv. rewrite Hkv, IH. reflexivity.
Qed.
End OrderedMap.

(** The shape shared by [regions], [provinces] and [lgus]: one record per
    distinct key, in order of first occurrence, holding what the last row
    with that key gives. *)
Section Dedup.
Context {V : Type}.
Variables (code : V -> string) (key : AddressRow -> string)
          (mkv : AddressRow -> V).
Hypothesis code_mkv : forall row, code (mkv row) = key row.

Definition dedup (rows : list AddressRow) : list V :=
  map_values (new_Map (map (fun row => (key row, mkv row)) rows)).

Lemma keyed_entries rows :
  keyed code (map (fun row => (key row, mkv row)) rows).
Proof.
  unfold keyed. rewrite Forall_map. apply Forall_forall.
  intros row _. apply code_mkv.
Qed.

Lemma dedup_NoDup rows : NoDup (map code (dedup rows)).
Proof.
  unfold dedup, new_Map. rewrite (keyed_codes code).
  - apply (NoDup_fold_set_entry _ []). constructor.
  - apply keyed_fold_set_entry; [apply keyed_entries | constructor].
Qed.

Lemma assoc_entries c rows :
  assoc c (map (fun row => (key row, mkv row)) rows) =
  option_map mkv (find (fun row => String.eqb (key row) c) rows).
Proof.
  induction rows as [|row rows IH]; simpl; [reflexivity|].
  destruct (String.eqb (key row) c); [reflexivity | exact IH].
Qed.

Lemma dedup_find rows c :
  find (fun x => String.eqb (code x) c) (dedup rows) =
  option_map mkv (find (fun row => String.eqb (key row) c) (rev rows)).
Proof.
  unfold dedup, new_Map. rewrite (keyed_find code).
  - rewrite (assoc_fold_set_entry _ [] c). rewrite <- map_rev.
    rewrite assoc_entries. simpl.
    now destruct (find _ (rev rows)).
  - apply keyed_fold_set_entry; [apply keyed_entries | constructor].
Qed.
End Dedup.

(** *** Sets of strings *)

Definition add_to (s : list string) (x : string) : list string := set_add x s.

Lemma new_Set_fold l : new_Set l = fold_left add_to l [].
Proof. reflexivity. Qed.

Lemma fold_add_NoDup l s : NoDup s -> NoDup (fold_left add_to l s).
Proof.
  revert s. induction l as [|x l IH]; intros s H; simpl; auto.
  apply IH. unfold add_to, set_add.
  destruct (includes s x) eqn:E; [assumption|].
  apply includes_not_In in E.
  apply NoDup_rev in H. rewrite <- (rev_involutive (_ ++ _)).
  apply NoDup_rev. rewrite rev_app_distr. simpl.
  constructor; [|assumption]. now rewrite <- in_rev.
Qed.

Lemma fold_add_In l s x : In x (fold_left add_to l s) <-> In x s \/ In x l.
Proof.
  revert s. induction l as [|y l IH]; intros s; simpl; [tauto|].
  rewrite IH. unfold add_to, set_add.
  destruct (includes s y) eqn:E.
  - apply includes_In in E. split; [tauto|].
    intros [H|[H|H]]; subst; auto.
  - rewrite in_app_iff. simpl. tauto.
Qed.

Lemma fold_add_length l s :
  length (fold_left add_to l s) <= length s + length l.
Proof.
  revert s. induction l as [|y l IH]; intros s; simpl; [lia|].
  etransitivity; [apply IH|]. unfold add_to, set_add.
  destruct (includes s y); [lia|]. rewrite length_app. simpl. lia.
Qed.

Lemma new_Set_NoDup l : NoDup (new_Set l).
Proof. rewrite new_Set_fold. apply fold_add_NoDup. constructor. Qed.

Lemma new_Set_In l x : In x (new_Set l) <-> In x l.
Proof. rewrite new_Set_fold, fold_add_In. simpl. tauto. Qed.

(** [size] of [new Set(l)] is the number of distinct elements of [l]. *)
Lemma new_Set_size l : length (new_Set l) = length (nodup string_dec l).
Proof.
  apply Permutation_length, NoDup_Permutation.
  - apply new_Set_NoDup.
  - apply NoDup_nodup.
  - intros x. now rewrite new_Set_In, nodup_In.
Qed.

Lemma new_Set_size_le l : length (new_Set l) <= length l.
Proof. rewrite new_Set_fold. apply (fold_add_length l []). Qed.

Lemma new_Set_size_full l : length (new_Set l) = length l <-> NoDup l.
Proof.
  split; intros H.
  - apply (@NoDup_incl_NoDup _ (new_Set l)).
    + apply new_Set_NoDup.
    + lia.
    + intros x. apply new_Set_In.
  - apply Permutation_length, NoDup_Permutation;
      [apply new_Set_NoDup | assumption | apply new_Set_In].
Qed.

(** The keys of [new Map(entries)] are those of [new Set] of the keys:
    the order is that of first occurrence. *)
Lemma new_Map_keys {V} (entries : list (string * V)) :
  map fst (new_Map entries) = new_Set (map fst entries).
Proof.
  unfold new_Map. rewrite new_Set_fold.
  change (@nil string) with (map fst (@nil (string * V))).
  generalize (@nil (string * V)) as m.
  induction entries as [|[k v] es IH]; intros m; simpl; [reflexivity|].
  rewrite IH. unfold set_entry at 1. simpl.
  now rewrite keys_map_set.
Qed.

(** ** The [complete] callback, branch by branch *)

Lemma complete_missing data errs fields st :
  missingColumnsOf fields <> [] ->
  run (complete data errs fields) st =
  let v := mkValidation false
             [("Missing required columns: "
                 ++ join ", " (missingColumnsOf fields))%string]
             zeroStats in
  (Normal tt,
   mkWorld (mkAppState (parseResults st) error v)
           [EvSetUploadStatus error; EvSetValidation v]).
Proof.
  intros H. unfold run, complete.
  destruct (missingColumnsOf fields) as [|c cs]; [congruence|].
  reflexivity.
Qed.

Lemma complete_present data errs fields st :
  missingColumnsOf fields = [] ->
  run (complete data errs fields) st =
  let validationErrors := validationErrorsOf data in
  let v := mkValidation (length validationErrors =? 0)%nat validationErrors
             (statsOf data) in
  let s := if (length validationErrors =? 0)%nat then idle else error in
  (Normal tt,
   mkWorld (mkAppState (mkParseResults data errs) s v)
           [EvSetParseResults (mkParseResults data errs);
            EvSetValidation v; EvSetUploadStatus s]).
Proof.
  intros H. unfold run, complete. rewrite H. reflexivity.
Qed.

(** ** Extraction of the deduplicated collections *)

Definition toRegion (row : AddressRow) : Region.t :=
  Region.mk (regionCode row) (regionName row).

Definition toProvince (row : AddressRow) : Province.t :=
  Province.mk (provinceCode row) (provinceName row) (regionCode row).

Definition toLgu (row : AddressRow) : Lgu.t :=
  Lgu.mk (lguCode row) (lguName row) (provinceCode row).

Definition toBarangay (row : AddressRow) : Barangay.t :=
  Barangay.mk (barangayCode row) (barangayName row)
              (provinceCode row) (lguCode row).

(** The last row of [rows] whose [key] is [c]. *)
Definition lastRowWith (key : AddressRow -> string) (c : string)
  (rows : list AddressRow) : option AddressRow :=
  find (fun row => String.eqb (key row) c) (rev rows).

Definition rowFirst : AddressRow :=
  mkAddressRow "01" "First" "P1" "Prov1" "L1" "Lgu1" "B1" "Brgy1".

Definition rowSecond : AddressRow :=
  mkAddressRow "01" "Second" "P1" "Prov1" "L1" "Lgu1" "B2" "Brgy2".

(** C1, as stated, fails: with the same region code in two rows under
    different names, the one region kept carries the name of the second
    row, not of the first. *)
Lemma C1_first_occurrence_refuted :
  regionsOf [rowFirst; rowSecond] = [Region.mk "01" "Second"] /\
  regionsOf [rowFirst; rowSecond] <> [toRegion rowFirst].
Proof. split; [reflexivity | discriminate]. Qed.

(** C1, amended: the Region, Province and Lgu collections hold at most one
    record per distinct code, and for each code the stored record (name
    and parent code) is the one derived from the last row in which that
    code occurs. *)
Theorem C1_last_occurrence_wins (rows : list AddressRow) :
  (NoDup (map Region.code (regionsOf rows)) /\
   NoDup (map Province.code (provincesOf rows)) /\
   NoDup (map Lgu.code (lgusOf rows))) /\
  (forall c,
      find (fun x => String.eqb (Region.code x) c) (regionsOf rows) =
      option_map toRegion (lastRowWith regionCode c rows)) /\
  (forall c,
      find (fun x => String.eqb (Province.code x) c) (provincesOf rows) =
      option_map toProvince (lastRowWith provinceCode c rows)) /\
  (forall c,
      find (fun x => String.eqb (Lgu.code x) c) (lgusOf rows) =
      option_map toLgu (lastRowWith lguCode c rows)).
Proof.
  repeat split.
  - apply (dedup_NoDup Region.code regionCode toRegion). reflexivity.
  - apply (dedup_NoDup Province.code provinceCode toProvince). reflexivity.
  - apply (dedup_NoDup Lgu.code lguCode toLgu). reflexivity.
  - intros c. apply (dedup_find Region.code regionCode toRegion). reflexivity.
  - intros c.
    apply (dedup_find Province.code provinceCode toProvince). reflexivity.
  - intros c. apply (dedup_find Lgu.code lguCode toLgu). reflexivity.
Qed.

(** The collections list their codes in order of first occurrence. *)
Lemma regionsOf_codes rows :
  map Region.code (regionsOf rows) = new_Set (map regionCode rows).
Proof.
  unfold regionsOf. rewrite (keyed_codes Region.code).
  - now rewrite new_Map_keys, map_map.
  - apply keyed_fold_set_entry; [|constructor].
    apply (keyed_entries Region.code regionCode toRegion). reflexivity.
Qed.

(** ** Summary counts *)

Definition rowDupA : AddressRow :=
  mkAddressRow "01" "R1" "P1" "Prov1" "L1" "Lgu1" "B1" "Brgy1".

Definition rowDupB : AddressRow :=
  mkAddressRow "01" "R1" "P1" "Prov1" "L2" "Lgu2" "B1" "Brgy1".

(** C2, as stated, fails: two valid rows with the same barangay code give
    [stats.barangays = 1], not 2. *)
Lemma C2_row_count_refuted :
  let v := validation
             (finalState
                (complete [rowDupA; rowDupB] [] (Some requiredColumns))
                initialState) in
  valid v = true /\ barangays (stats v) = 1 /\
  barangays (stats v) <> length [rowDupA; rowDupB].
Proof. vm_compute. repeat split; discriminate. Qed.

(** C2, amended: for every valid input (the report is valid: the header
    has all required columns and no row has an empty required field),
    [stats.barangays] is the number of distinct barangay codes among the
    rows; it is at most the number of rows and equals it exactly when no
    barangay code is repeated. *)
Theorem C2_distinct_barangay_count data errs fields st :
  let v := validation (finalState (complete data errs fields) st) in
  valid v = true ->
  barangays (stats v) = length (nodup string_dec (map barangayCode data)) /\
  barangays (stats v) <= length data /\
  (barangays (stats v) = length data <-> NoDup (map barangayCode data)).
Proof.
  intros v Hv. unfold v, finalState in *.
  destruct (missingColumnsOf fields) as [|c cs] eqn:M.
  - rewrite complete_present by assumption.
    simpl. repeat split.
    + apply new_Set_size.
    + rewrite <- (length_map barangayCode data). apply new_Set_size_le.
    + intros E. apply new_Set_size_full. now rewrite length_map.
    + intros E. apply new_Set_size_full in E. now rewrite length_map in E.
  - rewrite complete_missing in Hv by congruence. discriminate Hv.
Qed.

(** Two valid rows sharing the barangay code ["B1"]. *)
Lemma C2_distinct_barangay_count_witness :
  let v := validation
             (finalState
                (complete [rowDupA; rowDupB] [] (Some requiredColumns))
                initialState) in
  barangays (stats v) = 1 /\ barangays (stats v) <= 2 /\
  (barangays (stats v) = 2 <-> NoDup ["B1"; "B1"]).
Proof.
  apply (C2_distinct_barangay_count [rowDupA; rowDupB] []
           (Some requiredColumns) initialState).
  reflexivity.
Defined.

(** ** Required columns *)

Lemma In_missingColumnsOf fields c :
  In c (missingColumnsOf fields) <->
  In c requiredColumns /\
  ~ In c (match fields with Some f => f | None => [] end).
Proof.
  unfold missingColumnsOf. rewrite filter_In, negb_true_iff.
  now rewrite includes_not_In.
Qed.

Lemma append_empty_r (s : string) : (s ++ "")%string = s.
Proof. induction s as [|a s IH]; simpl; congruence. Qed.

Lemma append_assoc' (a b c : string) :
  ((a ++ b) ++ c)%string = (a ++ b ++ c)%string.
Proof. induction a as [|x a IH]; simpl; congruence. Qed.

(** Every element of a joined list can be read in the result. *)
Lemma join_contains sep l c :
  In c l -> exists pre post, join sep l = (pre ++ c ++ post)%string.
Proof.
  induction l as [|x [|y rest] IH]; intros H.
  - destruct H.
  - destruct H as [->|[]]. exists ""%string, ""%string. simpl.
    now rewrite append_empty_r.
  - destruct H as [->|H].
    + exists ""%string, (sep ++ join sep (y :: rest))%string. reflexivity.
    + destruct (IH H) as [pre [post E]].
      exists (x ++ sep ++ pre)%string, post.
      change (join sep (x :: y :: rest))
        with (x ++ sep ++ join sep (y :: rest))%string.
      rewrite E. now rewrite !append_assoc'.
Qed.

(** C4: when the header lacks a non-empty set of required columns (the
    missing ones, in the order of the required list), the report is
    [valid = false] with exactly one message that names every missing
    column, joined; no per-row check is made (the report is the same for
    every row set), and the status is [error]. *)
Theorem C4_missing_columns data errs fields st :
  missingColumnsOf fields <> [] ->
  let missing := missingColumnsOf fields in
  let w := snd (run (complete data errs fields) st) in
  (forall c, In c missing <->
             In c requiredColumns /\
             ~ In c (match fields with Some f => f | None => [] end)) /\
  validation (state w) =
    mkValidation false
      [("Missing required columns: " ++ join ", " missing)%string] zeroStats /\
  (forall c, In c missing ->
             exists pre post, join ", " missing = (pre ++ c ++ post)%string) /\
  (forall data',
      validation (finalState (complete data' errs fields) st) =
      validation (state w)) /\
  uploadStatus (state w) = error /\
  parseResults (state w) = parseResults st /\
  log w = [EvSetUploadStatus error; EvSetValidation (validation (state w))].
Proof.
  intros H missing w. subst w. unfold finalState.
  split; [intros c; apply In_missingColumnsOf|].
  split; [now rewrite complete_missing|].
  split; [intros c; apply join_contains|].
  split; [intros data'; now rewrite !complete_missing|].
  now rewrite complete_missing.
Qed.

(** Scenario B: a header without [lguCode]. *)
Lemma C4_missing_columns_witness :
  validation
    (finalState
       (complete [row1] []
          (Some ["regionCode"; "regionName"; "provinceCode"; "provinceName";
                 "lguName"; "barangayCode"; "barangayName"]))
       initialState) =
  mkValidation false ["Missing required columns: lguCode"] zeroStats.
Proof.
  refine (proj1 (proj2 (C4_missing_columns [row1] [] _ initialState _))).
  discriminate.
Defined.

(** ** Per-row checks *)

(** The required columns whose value in [row] is empty. *)
Definition emptyCols (row : AddressRow) : list string :=
  filter (fun col => falsy (getField col row)) requiredColumns.

Definition rowViolations (row : AddressRow) (index : nat) : list string :=
  map (missingValueMessage (index + 2)) (emptyCols row).

Fixpoint violationsFrom (data : list AddressRow) (index : nat) : list string :=
  match data with
  | [] => []
  | row :: rest => rowViolations row index ++ violationsFrom rest (S index)
  end.

Lemma forEach_push {A} (p : A -> bool) (f : A -> string) l j errs :
  forEach_from (fun x (_ : nat) acc => if p x then acc ++ [f x] else acc)
               l j errs =
  errs ++ map f (filter p l).
Proof.
  revert j errs. induction l as [|x l IH]; intros j errs; simpl.
  - now rewrite app_nil_r.
  - rewrite IH. destruct (p x); simpl; [|reflexivity].
    now rewrite <- app_assoc.
Qed.

Lemma checkRow_spec row index errs :
  checkRow row index errs = errs ++ rowViolations row index.
Proof.
  unfold checkRow, forEach, rowViolations, emptyCols.
  apply (forEach_push (fun col => falsy (getField col row))).
Qed.

Lemma forEach_checkRow data index errs :
  forEach_from checkRow data index errs = errs ++ violationsFrom data index.
Proof.
  revert index errs. induction data as [|row rest IH]; intros index errs.
  - simpl. now rewrite app_nil_r.
  - simpl. rewrite IH, checkRow_spec. now rewrite <- app_assoc.
Qed.

Lemma validationErrorsOf_spec data :
  validationErrorsOf data = violationsFrom data 0.
Proof. unfold validationErrorsOf, forEach. apply forEach_checkRow. Qed.



(** *** The messages determine the row number and the column *)











Definition rowNoName : AddressRow :=
  mkAddressRow "01" "R1" "P1" "Prov1" "L1" "Lgu1" "B1" "".


(** ** Barangays *)

(** C6: the Barangay collection has one record per input row, in input
    order, whatever the barangay codes are. *)
Theorem C6_barangay_pass_through (rows : list AddressRow) :
  length (barangaysOf rows) = length rows /\
  (forall i, nth_error (barangaysOf rows) i =
             option_map toBarangay (nth_error rows i)) /\
  map Barangay.code (barangaysOf rows) = map barangayCode rows.
Proof.
  unfold barangaysOf. split; [apply length_map|]. split.
  - intros i. apply nth_error_map.
  - rewrite map_map. reflexivity.
Qed.

(** ** The store calls of [uploadData] *)

Lemma calls_app l1 l2 : calls (l1 ++ l2) = calls l1 ++ calls l2.
Proof.
  induction l1 as [|e l1 IH]; simpl; [reflexivity|].
  destruct e; simpl; congruence.
Qed.

Definition deletePlan : list StoreCall :=
  [Delete "barangays"; Delete "lgus"; Delete "provinces"; Delete "regions"].

(** The slices taken by the [for] loop from index [i] on, within [fuel]
    iterations. *)
Fixpoint batchesFrom (barangays : list Barangay.t) (fuel i : nat)
  : list (list Barangay.t) :=
  if (i <? length barangays)%nat then
    match fuel with
    | 0 => []
    | S fuel' =>
        slice i (i + BATCH_SIZE) barangays
          :: batchesFrom barangays fuel' (i + BATCH_SIZE)
    end
  else [].

Definition insertBatch (batch : list Barangay.t) : StoreCall :=
  Insert "barangays" (PBarangays batch).

Definition insertPlan (regions : list Region.t) (provinces : list Province.t)
  (lgus : list Lgu.t) (barangays : list Barangay.t) : list StoreCall :=
  (if (0 <? length regions)%nat
   then [Insert "regions" (PRegions regions)] else []) ++
  (if (0 <? length provinces)%nat
   then [Insert "provinces" (PProvinces provinces)] else []) ++
  (if (0 <? length lgus)%nat then [Insert "lgus" (PLgus lgus)] else []) ++
  (if (0 <? length barangays)%nat
   then map insertBatch (batchesFrom barangays (length barangays) 0)
   else []).

(** [issues m plan]: from any world, [m] only adds events to the log; the
    store calls among them are [plan] when [m] completes normally and a
    prefix of [plan] otherwise. *)
Definition issues {A} (m : Eff A) (plan : list StoreCall) : Prop :=
  forall w, exists evs,
    log (snd (m w)) = log w ++ evs /\
    match fst (m w) with
    | Normal _ => calls evs = plan
    | _ => exists rest, plan = calls evs ++ rest
    end.

Lemma issues_ret {A} (a : A) : issues (ret a) [].
Proof. intros w. exists []. simpl. now rewrite app_nil_r. Qed.

Lemma issues_throw {A} e : issues (@throw A e) [].
Proof. intros w. exists []. simpl. rewrite app_nil_r. split; eauto. Qed.

Lemma issues_await store c : issues (await store c) [c].
Proof.
  intros w. exists [EvCall c (store (calls (log w)) c)].
  unfold await. destruct (store (calls (log w)) c); simpl; split; auto.
  now exists [].
Qed.

Lemma issues_bind {A B} (m : Eff A) (k : A -> Eff B) p1 p2 :
  issues m p1 -> (forall a, issues (k a) p2) -> issues (bind m k) (p1 ++ p2).
Proof.
  intros Hm Hk w. unfold bind.
  destruct (Hm w) as [evs1 [L1 C1]].
  destruct (m w) as [[a|e|] w1]; simpl in *.
  - destruct (Hk a w1) as [evs2 [L2 C2]].
    exists (evs1 ++ evs2). rewrite L2, L1, app_assoc. split; [reflexivity|].
    rewrite calls_app, C1.
    destruct (fst (k a w1)); [congruence| |];
      destruct C2 as [rest ->]; exists rest; now rewrite app_assoc.
  - exists evs1. split; [assumption|]. destruct C1 as [rest ->].
    exists (rest ++ p2). now rewrite app_assoc.
  - exists evs1. split; [assumption|]. destruct C1 as [rest ->].
    exists (rest ++ p2). now rewrite app_assoc.
Qed.

Lemma issues_insertOrThrow store table payload prefix :
  issues (insertOrThrow store table payload prefix) [Insert table payload].
Proof.
  unfold insertOrThrow.
  change [Insert table payload] with ([Insert table payload] ++ []).
  apply issues_bind; [apply issues_await|].
  intros [message|]; [apply issues_throw | apply issues_ret].
Qed.

Lemma issues_insertBarangays store barangays fuel i :
  issues (insertBarangays store barangays fuel i)
         (map insertBatch (batchesFrom barangays fuel i)).
Proof.
  revert i. induction fuel as [|fuel IH]; intros i; simpl;
    destruct (i <? length barangays)%nat; try apply issues_ret.
  - intros w. exists []. simpl. rewrite app_nil_r. split; eauto.
  - simpl.
    change (insertBatch ?b :: ?l) with ([insertBatch b] ++ l).
    apply issues_bind; [apply issues_insertOrThrow|]. intros _. apply IH.
Qed.

Lemma issues_clearTables store : issues (clearTables store) deletePlan.
Proof.
  unfold clearTables, deletePlan.
  change (issues
            (await store (Delete "barangays") ;;
             await store (Delete "lgus") ;;
             await store (Delete "provinces") ;;
             await store (Delete "regions"))
            ([Delete "barangays"] ++ [Delete "lgus"] ++ [Delete "provinces"]
               ++ [Delete "regions"])).
  repeat (apply issues_bind; [apply issues_await | intros _]).
  apply issues_await.
Qed.

Lemma issues_insertCollections store regions provinces lgus barangays :
  issues (insertCollections store regions provinces lgus barangays)
         (insertPlan regions provinces lgus barangays).
Proof.
  unfold insertCollections, insertPlan.
  apply issues_bind;
    [destruct (0 <? length regions)%nat;
       [apply issues_insertOrThrow | apply issues_ret] | intros _].
  apply issues_bind;
    [destruct (0 <? length provinces)%nat;
       [apply issues_insertOrThrow | apply issues_ret] | intros _].
  apply issues_bind;
    [destruct (0 <? length lgus)%nat;
       [apply issues_insertOrThrow | apply issues_ret] | intros _].
  destruct (0 <? length barangays)%nat;
    [apply issues_insertBarangays | apply issues_ret].
Qed.

Lemma issues_clearAndInsert store regions provinces lgus barangays :
  issues (clearAndInsert store regions provinces lgus barangays)
         (deletePlan ++ insertPlan regions provinces lgus barangays).
Proof.
  apply issues_bind; [apply issues_clearTables|].
  intros _. apply issues_insertCollections.
Qed.

(** *** Termination of the bounded loop *)

Lemma BATCH_SIZE_pos : 0 < BATCH_SIZE.
Proof. unfold BATCH_SIZE. lia. Qed.

Definition terminates {A} (m : Eff A) : Prop :=
  forall w, fst (m w) <> Exhausted.

Lemma terminates_bind {A B} (m : Eff A) (k : A -> Eff B) :
  terminates m -> (forall a, terminates (k a)) -> terminates (bind m k).
Proof.
  intros Hm Hk w. unfold bind. specialize (Hm w).
  destruct (m w) as [[a|e|] w1]; simpl in *; [apply Hk | discriminate | auto].
Qed.

Lemma terminates_ret {A} (a : A) : terminates (ret a).
Proof. intros w. discriminate. Qed.

Lemma terminates_await store c : terminates (await store c).
Proof.
  intros w. unfold await. destruct (store (calls (log w)) c); discriminate.
Qed.

Lemma terminates_insertOrThrow store table payload prefix :
  terminates (insertOrThrow store table payload prefix).
Proof.
  apply terminates_bind; [apply terminates_await|].
  intros [message|] w; discriminate.
Qed.

(** [fuel] iterations are enough as soon as they reach the end of the
    array. *)
Lemma terminates_insertBarangays store barangays fuel i :
  length barangays <= i + fuel * BATCH_SIZE ->
  terminates (insertBarangays store barangays fuel i).
Proof.
  revert i. induction fuel as [|fuel IH]; intros i Hfuel; simpl;
    destruct (i <? length barangays)%nat eqn:E; try apply terminates_ret.
  - apply Nat.ltb_lt in E. simpl in Hfuel. exfalso. lia.
  - apply terminates_bind; [apply terminates_insertOrThrow|].
    intros _. apply IH. rewrite Nat.mul_succ_l in Hfuel. lia.
Qed.

Lemma enough_fuel (n : nat) : n <= 0 + n * BATCH_SIZE.
Proof. pose proof BATCH_SIZE_pos. simpl. nia. Qed.

Lemma terminates_clearAndInsert store regions provinces lgus barangays :
  terminates (clearAndInsert store regions provinces lgus barangays).
Proof.
  apply terminates_bind.
  - unfold clearTables.
    repeat (apply terminates_bind; [apply terminates_await | intros _]).
    apply terminates_await.
  - intros _. unfold insertCollections.
    repeat (apply terminates_bind;
            [match goal with |- terminates (if ?b then _ else _) =>
               destruct b;
               [apply terminates_insertOrThrow | apply terminates_ret]
             end | intros _]).
    destruct (0 <? length barangays)%nat; [|apply terminates_ret].
    apply terminates_insertBarangays, enough_fuel.
Qed.

(** *** Executions in which no store call fails *)

(** No delete rejects. *)
Definition deletesResolve (store : Store) : Prop :=
  forall h table, exists err, store h (Delete table) = Resolved err.

(** No delete rejects and every insert resolves without error. *)
Definition noFailure (store : Store) : Prop :=
  deletesResolve store /\
  (forall h table payload, store h (Insert table payload) = Resolved None).

Definition completes {A} (m : Eff A) : Prop :=
  forall w, exists a, fst (m w) = Normal a.

Lemma completes_bind {A B} (m : Eff A) (k : A -> Eff B) :
  completes m -> (forall a, completes (k a)) -> completes (bind m k).
Proof.
  intros Hm Hk w. unfold bind. destruct (Hm w) as [a Ha].
  destruct (m w) as [[a'|e|] w1]; simpl in *; try discriminate. apply Hk.
Qed.

Lemma completes_ret {A} (a : A) : completes (ret a).
Proof. intros w. now exists a. Qed.

Lemma completes_clearTables store :
  deletesResolve store -> completes (clearTables store).
Proof.
  intros Hd.
  assert (Hdel : forall table, completes (await store (Delete table))).
  { intros table w. unfold await.
    destruct (Hd (calls (log w)) table) as [err ->]. now exists err. }
  unfold clearTables.
  repeat (apply completes_bind; [apply Hdel | intros _]). apply Hdel.
Qed.

Section NoFailure.
Variable store : Store.
Hypothesis store_ok : noFailure store.

Lemma completes_insertOrThrow table payload prefix :
  completes (insertOrThrow store table payload prefix).
Proof.
  intros w. unfold insertOrThrow, bind, await.
  rewrite (proj2 store_ok). now exists tt.
Qed.

Lemma completes_insertBarangays barangays fuel i :
  length barangays <= i + fuel * BATCH_SIZE ->
  completes (insertBarangays store barangays fuel i).
Proof.
  revert i. induction fuel as [|fuel IH]; intros i Hfuel; simpl;
    destruct (i <? length barangays)%nat eqn:E; try apply completes_ret.
  - apply Nat.ltb_lt in E. simpl in Hfuel. exfalso. lia.
  - apply completes_bind; [apply completes_insertOrThrow|].
    intros _. apply IH. rewrite Nat.mul_succ_l in Hfuel. lia.
Qed.

Lemma completes_clearAndInsert regions provinces lgus barangays :
  completes (clearAndInsert store regions provinces lgus barangays).
Proof.
  apply completes_bind; [apply completes_clearTables, store_ok|].
  intros _. unfold insertCollections.
  repeat (apply completes_bind;
          [match goal with |- completes (if ?b then _ else _) =>
             destruct b;
             [apply completes_insertOrThrow | apply completes_ret]
           end | intros _]).
  destruct (0 <? length barangays)%nat; [|apply completes_ret].
  apply completes_insertBarangays, enough_fuel.
Qed.
End NoFailure.

(** *** [uploadData] around the load *)

Definition guardRejects (st : AppState) : bool :=
  negb (valid (validation st)) || (length (rows (parseResults st)) =? 0)%nat.

Definition withStatus (s : UploadStatus) (st : AppState) : AppState :=
  mkAppState (parseResults st) s (validation st).

(** The world in which the load starts. *)
Definition startWorld (st : AppState) : World :=
  mkWorld (withStatus uploading st)
          [EvSetUploadStatus uploading;
           EvToast toast_info "Processing data, please wait..."].

(** What [uploadData] does with the way the load ended. *)
Definition finish (r : Completion unit * World) : Completion unit * World :=
  match r with
  | (Normal _, w) =>
      (Normal tt,
       mkWorld (withStatus success (state w))
               (log w ++ [EvSetUploadStatus success;
                          EvToast toast_success
                                  "Address data updated successfully!"]))
  | (Abrupt e, w) =>
      (Normal tt,
       mkWorld (withStatus error (state w))
               (log w ++ [EvConsoleError e; EvSetUploadStatus error;
                          EvToast toast_error
                            (match e with
                             | ErrorObj message => message
                             | NonError => "Failed to update address data"
                             end)]))
  | (Exhausted, w) => (Exhausted, w)
  end.

Definition load (store : Store) (st : AppState) : Eff unit :=
  clearAndInsert store
    (regionsOf (rows (parseResults st))) (provincesOf (rows (parseResults st)))
    (lgusOf (rows (parseResults st))) (barangaysOf (rows (parseResults st))).

Lemma uploadData_rejected store st :
  guardRejects st = true ->
  run (uploadData store) st =
  (Normal tt,
   mkWorld st [EvToast toast_error "Please upload a valid CSV file first"]).
Proof.
  intros H. unfold guardRejects in H.
  unfold run, uploadData, tryCatch, bind, getState.
  cbn [state fst snd]. rewrite H. destruct st. reflexivity.
Qed.

Lemma uploadData_accepted store st :
  guardRejects st = false ->
  run (uploadData store) st = finish (load store st (startWorld st)).
Proof.
  intros H. unfold guardRejects in H.
  unfold run, uploadData, tryCatch, bind, getState.
  cbn [state fst snd]. rewrite H.
  unfold setUploadStatus, toast, emit. cbn [state log app].
  fold (withStatus uploading st). fold (startWorld st). fold (load store st).
  unfold finish.
  destruct (load store st (startWorld st)) as [[[]|e|] w];
    unfold console_error, emit; cbn [state log];
    rewrite <- ?app_assoc; reflexivity.
Qed.

Lemma calls_startWorld st : calls (log (startWorld st)) = [].
Proof. reflexivity. Qed.

Lemma calls_finish r : calls (log (snd (finish r))) = calls (log (snd r)).
Proof.
  destruct r as [[[]|e|] w]; simpl; rewrite ?calls_app; simpl;
    now rewrite ?app_nil_r.
Qed.

(** The calls of an upload when nothing fails. *)
Definition planOf (st : AppState) : list StoreCall :=
  if guardRejects st then []
  else deletePlan ++
       insertPlan (regionsOf (rows (parseResults st)))
                  (provincesOf (rows (parseResults st)))
                  (lgusOf (rows (parseResults st)))
                  (barangaysOf (rows (parseResults st))).

(** Whatever the store answers, the calls issued are a prefix of the plan. *)
Lemma uploadData_prefix store st :
  exists rest, planOf st = calls (trace (uploadData store) st) ++ rest.
Proof.
  unfold planOf, trace. destruct (guardRejects st) eqn:G.
  - rewrite uploadData_rejected by assumption. now exists [].
  - rewrite uploadData_accepted by assumption. rewrite calls_finish.
    destruct (issues_clearAndInsert store
                (regionsOf (rows (parseResults st)))
                (provincesOf (rows (parseResults st)))
                (lgusOf (rows (parseResults st)))
                (barangaysOf (rows (parseResults st)))
                (startWorld st)) as [evs [L C]].
    fold (load store st) in L, C. rewrite L, calls_app, calls_startWorld.
    simpl. destruct (fst (load store st (startWorld st)));
      [exists []; now rewrite app_nil_r | exact C | exact C].
Qed.

(** When nothing fails, the whole plan is issued. *)
Lemma uploadData_noFailure store st :
  noFailure store -> calls (trace (uploadData store) st) = planOf st.
Proof.
  intros Hs. unfold planOf, trace. destruct (guardRejects st) eqn:G.
  - now rewrite uploadData_rejected by assumption.
  - rewrite uploadData_accepted by assumption. rewrite calls_finish.
    destruct (issues_clearAndInsert store
                (regionsOf (rows (parseResults st)))
                (provincesOf (rows (parseResults st)))
                (lgusOf (rows (parseResults st)))
                (barangaysOf (rows (parseResults st)))
                (startWorld st)) as [evs [L C]].
    destruct (completes_clearAndInsert store Hs
                (regionsOf (rows (parseResults st)))
                (provincesOf (rows (parseResults st)))
                (lgusOf (rows (parseResults st)))
                (barangaysOf (rows (parseResults st)))
                (startWorld st)) as [a N].
    fold (load store st) in L, C, N. rewrite N in C.
    now rewrite L, calls_app, calls_startWorld.
Qed.

(** [uploadData] always returns: the bound of the loop is never reached,
    and every throw is caught. *)
Lemma uploadData_returns store st :
  fst (run (uploadData store) st) = Normal tt.
Proof.
  destruct (guardRejects st) eqn:G.
  - now rewrite uploadData_rejected.
  - rewrite uploadData_accepted by assumption.
    pose proof (terminates_clearAndInsert store
                  (regionsOf (rows (parseResults st)))
                  (provincesOf (rows (parseResults st)))
                  (lgusOf (rows (parseResults st)))
                  (barangaysOf (rows (parseResults st)))
                  (startWorld st)) as T.
    fold (load store st) in T.
    destruct (load store st (startWorld st)) as [[[]|e|] w];
      simpl in *; congruence.
Qed.

(** ** The guard *)

Lemma guardRejects_true st :
  guardRejects st = true <->
  valid (validation st) = false \/ rows (parseResults st) = [].
Proof.
  unfold guardRejects.
  rewrite orb_true_iff, negb_true_iff, Nat.eqb_eq, length_zero_iff_nil.
  reflexivity.
Qed.

(** C9: when the last report is not valid or there are no parsed rows,
    [uploadData] only shows the error toast: no store call is issued, the
    status is never set (so never [uploading]) and the state is unchanged. *)
Theorem C9_guard store st :
  valid (validation st) = false \/ rows (parseResults st) = [] ->
  trace (uploadData store) st =
    [EvToast toast_error "Please upload a valid CSV file first"] /\
  calls (trace (uploadData store) st) = [] /\
  (forall s, ~ In (EvSetUploadStatus s) (trace (uploadData store) st)) /\
  finalState (uploadData store) st = st.
Proof.
  intros H. apply guardRejects_true in H.
  unfold trace, finalState. rewrite uploadData_rejected by assumption.
  simpl. repeat split; auto. intros s [E|[]]. discriminate.
Qed.

(** A header-only file with all columns: the report is valid, there are no
    rows. *)
Definition stateNoRows : AppState :=
  finalState (complete [] [] (Some requiredColumns)) initialState.

(** The guard on a valid report without rows. *)
Lemma C9_guard_witness :
  valid (validation stateNoRows) = true /\
  calls (trace (uploadData okStore) stateNoRows) = [] /\
  finalState (uploadData okStore) stateNoRows = stateNoRows.
Proof.
  split; [reflexivity|].
  pose proof (C9_guard okStore stateNoRows (or_intror eq_refl)) as H.
  split; apply H.
Defined.

(** ** Order of the store calls *)

Definition isDelete (c : StoreCall) : bool :=
  match c with Delete _ => true | Insert _ _ => false end.

Definition isInsert (c : StoreCall) : bool :=
  match c with Delete _ => false | Insert _ _ => true end.

(** Position of a table in the insertion order. *)
Definition insertRank (table : string) : nat :=
  if table =? "regions" then 0
  else if table =? "provinces" then 1
  else if table =? "lgus" then 2
  else 3.

Definition callRank (c : StoreCall) : nat :=
  match c with Delete _ => 0 | Insert table _ => insertRank table end.

(** No call is followed by a call of smaller rank. *)
Definition ordered (l : list StoreCall) : Prop :=
  forall pre c post, l = pre ++ c :: post ->
                     forall c', In c' post -> callRank c <= callRank c'.

Lemma ordered_nil : ordered [].
Proof. intros [|x pre] c post H; discriminate. Qed.

Lemma ordered_cons c l :
  (forall c', In c' l -> callRank c <= callRank c') ->
  ordered l -> ordered (c :: l).
Proof.
  intros Hc Hl [|x pre] d post E c' Hin; simpl in E; injection E as <- E.
  - subst. auto.
  - eapply Hl; eauto.
Qed.

Lemma ordered_batches bs : ordered (map insertBatch bs).
Proof.
  induction bs as [|b bs IH]; simpl; [apply ordered_nil|].
  apply ordered_cons; [|assumption].
  intros c' Hin. apply in_map_iff in Hin. destruct Hin as [b' [<- _]].
  reflexivity.
Qed.

Lemma insertPlan_ordered regions provinces lgus barangays :
  ordered (insertPlan regions provinces lgus barangays).
Proof.
  unfold insertPlan.
  assert (Hb : ordered (if (0 <? length barangays)%nat
                        then map insertBatch
                               (batchesFrom barangays (length barangays) 0)
                        else [])).
  { destruct (0 <? length barangays)%nat;
      [apply ordered_batches | apply ordered_nil]. }
  assert (Hin : forall c', In c' (if (0 <? length barangays)%nat
                                  then map insertBatch
                                         (batchesFrom barangays
                                            (length barangays) 0)
                                  else []) -> callRank c' = 3).
  { intros c'. destruct (0 <? length barangays)%nat; [|intros []].
    rewrite in_map_iff. now intros [b [<- _]]. }
  revert Hb Hin. generalize (if (0 <? length barangays)%nat
                             then map insertBatch
                                    (batchesFrom barangays
                                       (length barangays) 0)
                             else []) as bs.
  intros bs Hb Hin.
  destruct (0 <? length regions)%nat, (0 <? length provinces)%nat,
    (0 <? length lgus)%nat; simpl;
    repeat (apply ordered_cons;
            [intros c' Hc; simpl in Hc;
             repeat (destruct Hc as [<-|Hc]; [vm_compute; lia|]);
             rewrite (Hin c' Hc); vm_compute; lia|]);
    exact Hb.
Qed.

Lemma insertPlan_inserts regions provinces lgus barangays :
  Forall (fun c => isInsert c = true)
         (insertPlan regions provinces lgus barangays).
Proof.
  unfold insertPlan. repeat (apply Forall_app; split).
  - destruct (0 <? length regions)%nat; repeat constructor.
  - destruct (0 <? length provinces)%nat; repeat constructor.
  - destruct (0 <? length lgus)%nat; repeat constructor.
  - destruct (0 <? length barangays)%nat; [|constructor].
    rewrite Forall_map. apply Forall_forall. reflexivity.
Qed.

(** An insert inside [deletePlan ++ inserts] comes after the four deletes. *)
Lemma split_after_deletes inserts pre table payload post :
  deletePlan ++ inserts = pre ++ Insert table payload :: post ->
  exists pre', pre = deletePlan ++ pre' /\
               inserts = pre' ++ Insert table payload :: post.
Proof.
  unfold deletePlan. intros E.
  do 4 (destruct pre as [|? pre]; simpl in E; [discriminate|];
        injection E as <- E).
  exists pre. auto.
Qed.

Lemma filter_none {A} (f : A -> bool) l :
  Forall (fun x => f x = false) l -> filter f l = [].
Proof. induction 1 as [|x l Hx _ IH]; simpl; [|rewrite Hx]; auto. Qed.

(** *** A failed call is the last call *)

(** A call fails when its promise rejects, or when it is an insert that
    resolves with an error (the only result the code reads). *)
Definition failed (c : StoreCall) (r : Response) : bool :=
  match r with
  | Rejected _ => true
  | Resolved (Some _) => isInsert c
  | Resolved None => false
  end.

Definition eventOk (e : Event) : bool :=
  match e with
  | EvCall c r => negb (failed c r)
  | _ => true
  end.

(** [stopsAtFailure m]: when [m] completes normally none of its calls has
    failed; otherwise at most its last event is a failed call. *)
Definition stopsAtFailure {A} (m : Eff A) : Prop :=
  forall w, exists evs,
    log (snd (m w)) = log w ++ evs /\
    match fst (m w) with
    | Normal _ => Forall (fun e => eventOk e = true) evs
    | _ => exists good last,
             evs = good ++ last /\
             Forall (fun e => eventOk e = true) good /\ length last <= 1
    end.

Lemma stops_ret {A} (a : A) : stopsAtFailure (ret a).
Proof. intros w. exists []. simpl. now rewrite app_nil_r. Qed.

Lemma stops_exhausted {A} : stopsAtFailure (fun w => (@Exhausted A, w)).
Proof.
  intros w. exists []. simpl. rewrite app_nil_r. split; [reflexivity|].
  exists [], []. simpl. auto.
Qed.

Lemma stops_delete store table : stopsAtFailure (await store (Delete table)).
Proof.
  intros w. exists [EvCall (Delete table) (store (calls (log w)) (Delete table))].
  unfold await. destruct (store (calls (log w)) (Delete table)) as [err|e];
    simpl; split; auto.
  - repeat constructor. now destruct err.
  - exists [], [EvCall (Delete table) (Rejected e)]. simpl. auto.
Qed.

Lemma stops_insertOrThrow store table payload prefix :
  stopsAtFailure (insertOrThrow store table payload prefix).
Proof.
  intros w.
  exists [EvCall (Insert table payload)
                 (store (calls (log w)) (Insert table payload))].
  unfold insertOrThrow, bind, await, throw, ret.
  destruct (store (calls (log w)) (Insert table payload)) as [[msg|]|e];
    simpl; split; auto.
  - exists [], [EvCall (Insert table payload) (Resolved (Some msg))].
    simpl. auto.
  - exists [], [EvCall (Insert table payload) (Rejected e)]. simpl. auto.
Qed.

Lemma stops_bind {A B} (m : Eff A) (k : A -> Eff B) :
  stopsAtFailure m -> (forall a, stopsAtFailure (k a)) ->
  stopsAtFailure (bind m k).
Proof.
  intros Hm Hk w. unfold bind.
  destruct (Hm w) as [evs1 [L1 C1]].
  destruct (m w) as [[a|e|] w1]; simpl in *; [|now exists evs1..].
  destruct (Hk a w1) as [evs2 [L2 C2]].
  exists (evs1 ++ evs2). rewrite L2, L1, app_assoc. split; [reflexivity|].
  destruct (fst (k a w1)).
  - apply Forall_app. auto.
  - destruct C2 as [good [last [-> [Hg Hl]]]].
    exists (evs1 ++ good), last. rewrite app_assoc.
    split; [reflexivity|]. split; [apply Forall_app|]; auto.
  - destruct C2 as [good [last [-> [Hg Hl]]]].
    exists (evs1 ++ good), last. rewrite app_assoc.
    split; [reflexivity|]. split; [apply Forall_app|]; auto.
Qed.

Lemma stops_insertBarangays store barangays fuel i :
  stopsAtFailure (insertBarangays store barangays fuel i).
Proof.
  revert i. induction fuel as [|fuel IH]; intros i; simpl;
    destruct (i <? length barangays)%nat; try apply stops_ret.
  - apply stops_exhausted.
  - apply stops_bind; [apply stops_insertOrThrow | intros _; apply IH].
Qed.

Lemma stops_clearAndInsert store regions provinces lgus barangays :
  stopsAtFailure (clearAndInsert store regions provinces lgus barangays).
Proof.
  apply stops_bind.
  - unfold clearTables.
    repeat (apply stops_bind; [apply stops_delete | intros _]).
    apply stops_delete.
  - intros _. unfold insertCollections.
    repeat (apply stops_bind;
            [match goal with |- stopsAtFailure (if ?b then _ else _) =>
               destruct b; [apply stops_insertOrThrow | apply stops_ret]
             end | intros _]).
    destruct (0 <? length barangays)%nat;
      [apply stops_insertBarangays | apply stops_ret].
Qed.

Lemma calls_cons_nil e l : calls (e :: l) = [] -> calls l = [].
Proof. destruct e; simpl; congruence. Qed.

Lemma no_call_after_split tail l1 e l2 :
  calls tail = [] -> tail = l1 ++ e :: l2 -> calls l2 = [].
Proof.
  intros H ->. rewrite calls_app in H. apply app_eq_nil in H.
  destruct H as [_ H]. now apply calls_cons_nil in H.
Qed.

Lemma no_call_after_failure good last tail l1 e l2 :
  Forall (fun e => eventOk e = true) good -> length last <= 1 ->
  calls tail = [] ->
  good ++ last ++ tail = l1 ++ e :: l2 -> eventOk e = false ->
  calls l2 = [].
Proof.
  intros Hg Hl Ht. revert l1.
  induction Hg as [|a good Ha Hg IH]; intros l1 E He; simpl in E.
  - destruct last as [|x [|y last]]; simpl in *; [| |lia].
    + eapply no_call_after_split; eauto.
    + destruct l1 as [|z l1]; simpl in E; injection E as <- E.
      * now subst.
      * eapply no_call_after_split; eauto.
  - destruct l1 as [|z l1]; simpl in E; injection E as <- E.
    + congruence.
    + eapply IH; eauto.
Qed.

(** In an upload no call is issued after a failed one. *)
Lemma uploadData_stops store st l1 c r l2 :
  trace (uploadData store) st = l1 ++ EvCall c r :: l2 ->
  failed c r = true -> calls l2 = [].
Proof.
  intros E F. unfold trace in E.
  assert (He : eventOk (EvCall c r) = false) by (simpl; now rewrite F).
  destruct (guardRejects st) eqn:G.
  - rewrite uploadData_rejected in E by assumption. simpl in E.
    destruct l1 as [|x [|y l1]]; discriminate.
  - rewrite uploadData_accepted in E by assumption.
    destruct (stops_clearAndInsert store
                (regionsOf (rows (parseResults st)))
                (provincesOf (rows (parseResults st)))
                (lgusOf (rows (parseResults st)))
                (barangaysOf (rows (parseResults st)))
                (startWorld st)) as [evs [L C]].
    fold (load store st) in L, C.
    destruct (load store st (startWorld st)) as [[[]|e|] w];
      cbn [finish fst snd log] in L, C, E; rewrite L in E.
    + refine (no_call_after_failure (log (startWorld st) ++ evs) [] _
                l1 (EvCall c r) l2 _ _ _ E He);
        [|simpl; lia|reflexivity].
      apply Forall_app. split; [repeat constructor | assumption].
    + destruct C as [good [last [-> [Hg Hl]]]].
      rewrite <- !app_assoc in E. rewrite (app_assoc _ good) in E.
      refine (no_call_after_failure (log (startWorld st) ++ good) last _
                l1 (EvCall c r) l2 _ Hl _ E He); [|reflexivity].
      apply Forall_app. split; [repeat constructor | assumption].
    + destruct C as [good [last [-> [Hg Hl]]]].
      rewrite <- (app_nil_r last) in E.
      rewrite (app_assoc _ good) in E.
      refine (no_call_after_failure (log (startWorld st) ++ good) last []
                l1 (EvCall c r) l2 _ Hl _ E He); [|reflexivity].
      apply Forall_app. split; [repeat constructor | assumption].
Qed.

(** Whatever the store answers: deletes in the order Barangay, Lgu,
    Province, Region; every insert after all four deletes; inserts in the
    order Region, Province, Lgu, Barangay. *)
Lemma uploadData_order store st :
  let cs := calls (trace (uploadData store) st) in
  (exists rest, deletePlan = filter isDelete cs ++ rest) /\
  forall pre table payload post,
    cs = pre ++ Insert table payload :: post ->
    (exists pre', pre = deletePlan ++ pre' /\
                  Forall (fun c => isInsert c = true) (pre' ++ post)) /\
    (forall table' payload',
        In (Insert table' payload') post ->
        insertRank table <= insertRank table') /\
    (table = "provinces" ->
     forall payload', ~ In (Insert "regions" payload') post).
Proof.
  intros cs. destruct (uploadData_prefix store st) as [rest P].
  fold cs in P. unfold planOf in P.
  destruct (guardRejects st).
  { symmetry in P. apply app_eq_nil in P. destruct P as [-> _].
    split; [now exists deletePlan|].
    intros [|x pre] table payload post E; discriminate. }
  set (ins := insertPlan _ _ _ _) in P.
  pose proof (insertPlan_inserts (regionsOf (rows (parseResults st)))
                (provincesOf (rows (parseResults st)))
                (lgusOf (rows (parseResults st)))
                (barangaysOf (rows (parseResults st)))) as HI.
  pose proof (insertPlan_ordered (regionsOf (rows (parseResults st)))
                (provincesOf (rows (parseResults st)))
                (lgusOf (rows (parseResults st)))
                (barangaysOf (rows (parseResults st)))) as HO.
  fold ins in HI, HO. split.
  - exists (filter isDelete rest).
    rewrite <- filter_app, <- P, filter_app.
    rewrite (filter_none isDelete ins); [now rewrite app_nil_r|].
    eapply Forall_impl; [|exact HI]. intros [t|t p]; simpl; congruence.
  - intros pre table payload post E.
    rewrite E, <- app_assoc in P. simpl in P.
    apply split_after_deletes in P. destruct P as [pre' [-> P]].
    assert (Hrank : forall table' payload',
               In (Insert table' payload') post ->
               insertRank table <= insertRank table').
    { intros table' payload' Hin.
      apply (HO pre' (Insert table payload) (post ++ rest) P
               (Insert table' payload')).
      apply in_or_app. now left. }
    split; [|split].
    + exists pre'. split; [reflexivity|].
      rewrite P in HI. apply Forall_app in HI. destruct HI as [H1 H2].
      apply Forall_app. split; [assumption|].
      inversion H2 as [|? ? _ H3]; subst.
      apply Forall_app in H3. tauto.
    + exact Hrank.
    + intros -> payload' Hin. apply Hrank in Hin. vm_compute in Hin. lia.
Qed.

(** C8: in every execution, whatever the store answers, the deletes are
    issued in the order Barangay, Lgu, Province, Region; every insert
    comes after all four deletes, with only inserts after them; inserts
    follow the order Region, Province, Lgu, Barangay, so no Region insert
    comes after a Province insert; and each call is awaited before the
    next is issued: after a call that rejected, or an insert that resolved
    with an error, no further call is issued. *)
Theorem C8_order store st :
  let cs := calls (trace (uploadData store) st) in
  (exists rest, deletePlan = filter isDelete cs ++ rest) /\
  (forall pre table payload post,
      cs = pre ++ Insert table payload :: post ->
      (exists pre', pre = deletePlan ++ pre' /\
                    Forall (fun c => isInsert c = true) (pre' ++ post)) /\
      (forall table' payload',
          In (Insert table' payload') post ->
          insertRank table <= insertRank table') /\
      (table = "provinces" ->
       forall payload', ~ In (Insert "regions" payload') post)) /\
  (forall l1 c r l2,
      trace (uploadData store) st = l1 ++ EvCall c r :: l2 ->
      failed c r = true -> calls l2 = []).
Proof.
  intros cs. destruct (uploadData_order store st) as [Hdel Hins].
  split; [exact Hdel|]. split; [exact Hins|].
  intros l1 c r l2. apply uploadData_stops.
Qed.

(** ** Batches *)

Section Batches.
Variable barangays : list Barangay.t.

Lemma length_slice i :
  length (slice i (i + BATCH_SIZE) barangays) =
  Nat.min BATCH_SIZE (length barangays - i).
Proof.
  unfold slice. rewrite length_firstn, length_skipn.
  now replace (i + BATCH_SIZE - i) with BATCH_SIZE by lia.
Qed.

Lemma batchesFrom_concat fuel i :
  length barangays <= i + fuel * BATCH_SIZE ->
  concat (batchesFrom barangays fuel i) = skipn i barangays.
Proof.
  revert i. induction fuel as [|fuel IH]; intros i Hfuel; simpl;
    destruct (i <? length barangays)%nat eqn:E.
  - apply Nat.ltb_lt in E. simpl in Hfuel. exfalso. lia.
  - apply Nat.ltb_ge in E. now rewrite skipn_all2.
  - simpl. rewrite IH by (rewrite Nat.mul_succ_l in Hfuel; lia).
    unfold slice. replace (i + BATCH_SIZE - i) with BATCH_SIZE by lia.
    rewrite (Nat.add_comm i), <- skipn_skipn. apply firstn_skipn.
  - apply Nat.ltb_ge in E. now rewrite skipn_all2.
Qed.

Lemma batchesFrom_nth fuel i j b :
  nth_error (batchesFrom barangays fuel i) j = Some b ->
  b = slice (i + j * BATCH_SIZE) (i + j * BATCH_SIZE + BATCH_SIZE) barangays
  /\ i + j * BATCH_SIZE < length barangays.
Proof.
  revert i j. induction fuel as [|fuel IH]; intros i j; simpl;
    destruct (i <? length barangays)%nat eqn:E;
    try (destruct j; discriminate).
  apply Nat.ltb_lt in E. destruct j as [|j]; cbn [nth_error].
  - intros [= <-]. rewrite Nat.mul_0_l, Nat.add_0_r. auto.
  - intros H. apply IH in H. rewrite Nat.mul_succ_l.
    replace (i + (j * BATCH_SIZE + BATCH_SIZE))
      with (i + BATCH_SIZE + j * BATCH_SIZE) by lia.
    exact H.
Qed.

Lemma batchesFrom_length fuel i :
  length barangays <= i + fuel * BATCH_SIZE ->
  length (batchesFrom barangays fuel i) =
  (length barangays - i + BATCH_SIZE - 1) / BATCH_SIZE.
Proof.
  pose proof BATCH_SIZE_pos as Hpos.
  revert i. induction fuel as [|fuel IH]; intros i Hfuel;
    cbn [batchesFrom]; destruct (i <? length barangays)%nat eqn:E;
    cbn [length].
  - apply Nat.ltb_lt in E. rewrite Nat.mul_0_l in Hfuel. exfalso. lia.
  - apply Nat.ltb_ge in E. symmetry. apply Nat.div_small. lia.
  - apply Nat.ltb_lt in E.
    rewrite IH by (rewrite Nat.mul_succ_l in Hfuel; lia).
    destruct (Nat.le_gt_cases BATCH_SIZE (length barangays - i)) as [H|H].
    + replace (length barangays - i + BATCH_SIZE - 1)
        with (length barangays - (i + BATCH_SIZE) + BATCH_SIZE - 1
              + 1 * BATCH_SIZE) by lia.
      rewrite Nat.div_add by lia. lia.
    + replace (length barangays - (i + BATCH_SIZE)) with 0 by lia.
      rewrite (Nat.div_small (0 + BATCH_SIZE - 1)) by lia.
      apply (Nat.div_unique _ _ 1 (length barangays - i - 1)); lia.
  - apply Nat.ltb_ge in E. symmetry. apply Nat.div_small. lia.
Qed.

End Batches.

(** The payloads of the barangay inserts among the calls. *)
Fixpoint barangayBatches (cs : list StoreCall) : list (list Barangay.t) :=
  match cs with
  | [] => []
  | Insert table (PBarangays b) :: cs' =>
      if table =? "barangays" then b :: barangayBatches cs'
      else barangayBatches cs'
  | _ :: cs' => barangayBatches cs'
  end.

Lemma barangayBatches_app cs1 cs2 :
  barangayBatches (cs1 ++ cs2) = barangayBatches cs1 ++ barangayBatches cs2.
Proof.
  induction cs1 as [|c cs1 IH]; simpl; [reflexivity|].
  destruct c as [t|t []]; auto.
  destruct (t =? "barangays"); simpl; congruence.
Qed.

Lemma barangayBatches_insertBatch bs :
  barangayBatches (map insertBatch bs) = bs.
Proof. induction bs as [|b bs IH]; simpl; congruence. Qed.

Lemma barangayBatches_plan regions provinces lgus barangays :
  barangayBatches
    (deletePlan ++ insertPlan regions provinces lgus barangays) =
  if (0 <? length barangays)%nat
  then batchesFrom barangays (length barangays) 0 else [].
Proof.
  unfold insertPlan. rewrite !barangayBatches_app.
  destruct (0 <? length regions)%nat, (0 <? length provinces)%nat,
    (0 <? length lgus)%nat, (0 <? length barangays)%nat; simpl;
    try reflexivity; apply barangayBatches_insertBatch.
Qed.

(** Whatever the store answers, the batches sent are the first ones of the
    plan, in order. *)
Lemma uploadData_batches_prefix store st :
  exists rest,
    barangayBatches (planOf st) =
    barangayBatches (calls (trace (uploadData store) st)) ++ rest.
Proof.
  destruct (uploadData_prefix store st) as [rest ->].
  rewrite barangayBatches_app. eauto.
Qed.

(** C7: when the upload is accepted (so K > 0 records) and no store call
    fails, the barangay insert calls are ceil(K / 1000) in number, each of
    1000 records except possibly the last (which is not empty), and their
    payloads, concatenated in issue order, are the K records in order. *)
Theorem C7_batches store st :
  valid (validation st) = true ->
  rows (parseResults st) <> [] ->
  noFailure store ->
  let K := length (barangaysOf (rows (parseResults st))) in
  let bs := barangayBatches (calls (trace (uploadData store) st)) in
  BATCH_SIZE = 1000 /\
  length bs = (K + BATCH_SIZE - 1) / BATCH_SIZE /\
  concat bs = barangaysOf (rows (parseResults st)) /\
  (forall j b, nth_error bs j = Some b ->
               0 < length b <= BATCH_SIZE /\
               (S j < length bs -> length b = BATCH_SIZE)).
Proof.
  intros Hv Hr Hs K bs. split; [reflexivity|].
  assert (G : guardRejects st = false).
  { destruct (guardRejects st) eqn:G; [|reflexivity].
    apply guardRejects_true in G. destruct G; congruence. }
  assert (HK : 0 < K).
  { unfold K, barangaysOf. rewrite length_map.
    destruct (rows (parseResults st)); [congruence | simpl; lia]. }
  assert (Hbs : bs = batchesFrom (barangaysOf (rows (parseResults st))) K 0).
  { unfold bs. rewrite uploadData_noFailure by assumption.
    unfold planOf. rewrite G, barangayBatches_plan. fold K.
    apply Nat.ltb_lt in HK. now rewrite HK. }
  rewrite Hbs. split; [|split].
  - unfold K at 1. rewrite batchesFrom_length by apply enough_fuel.
    now rewrite Nat.sub_0_r.
  - unfold K. now rewrite batchesFrom_concat by apply enough_fuel.
  - intros j b Hj. pose proof Hj as Hb.
    apply batchesFrom_nth in Hb. destruct Hb as [-> Hlt].
    rewrite length_slice. fold K in Hlt |- *.
    rewrite Nat.add_0_l in Hlt |- *.
    pose proof BATCH_SIZE_pos. split; [lia|].
    intros Hnext. apply nth_error_Some in Hnext.
    destruct (nth_error _ (S j)) as [b'|] eqn:E; [|congruence].
    apply batchesFrom_nth in E. destruct E as [_ E].
    fold K in E. rewrite Nat.mul_succ_l, Nat.add_0_l in E. lia.
Qed.

(** Scenario D: 2500 rows with distinct barangay codes. *)
Definition rows2500 : list AddressRow :=
  map (fun i => mkAddressRow "01" "R1" "P1" "Prov1" "L1" "Lgu1"
                             (nat_to_string i) "Brgy")
      (seq 0 2500).

Definition state2500 : AppState :=
  finalState (complete rows2500 [] (Some requiredColumns)) initialState.

Lemma okStore_noFailure : noFailure okStore.
Proof. split; [intros h t; now exists None | reflexivity]. Qed.

Lemma C7_batches_witness :
  let bs := barangayBatches (calls (trace (uploadData okStore) state2500)) in
  map (@length Barangay.t) bs = [1000; 1000; 500] /\
  concat bs = barangaysOf (rows (parseResults state2500)).
Proof.
  assert (Hv : valid (validation state2500) = true)
    by (vm_compute; reflexivity).
  assert (Hr : rows (parseResults state2500) <> []) by discriminate.
  pose proof (C7_batches okStore state2500 Hv Hr okStore_noFailure) as H.
  split; [vm_compute; reflexivity | apply H].
Defined.

(** ** Failing deletes *)

(** A valid one-row file has been parsed. *)
Definition stateRow1 : AppState :=
  finalState (complete [row1] [] (Some requiredColumns)) initialState.

(** The store refuses to clear [lgus]: the call resolves with an error. *)
Definition lgusDeleteFails : Store :=
  fun _ c =>
    match c with
    | Delete table =>
        if table =? "lgus" then Resolved (Some "permission denied")
        else Resolved None
    | Insert _ _ => Resolved None
    end.

(** The same failure as a rejected promise. *)
Definition lgusDeleteRejects : Store :=
  fun _ c =>
    match c with
    | Delete table =>
        if table =? "lgus" then Rejected (ErrorObj "Failed to fetch")
        else Resolved None
    | Insert _ _ => Resolved None
    end.

(** C3 does not hold of the code: the error a delete resolves with is
    never read.  With the [lgus] clear failing, the upload goes on through
    the other deletes and all four inserts and ends in [success]. *)
Theorem C3_delete_error_ignored :
  let w := snd (run (uploadData lgusDeleteFails) stateRow1) in
  In (EvCall (Delete "lgus") (Resolved (Some "permission denied"))) (log w) /\
  calls (log w) =
    [Delete "barangays"; Delete "lgus"; Delete "provinces"; Delete "regions";
     Insert "regions" (PRegions [Region.mk "01" "R1"]);
     Insert "provinces" (PProvinces [Province.mk "P1" "Prov1" "01"]);
     Insert "lgus" (PLgus [Lgu.mk "L1" "Lgu1" "P1"]);
     Insert "barangays" (PBarangays [Barangay.mk "B1" "Brgy1" "P1" "L1"])] /\
  uploadStatus (state w) = success /\
  (forall k msg, In (EvToast k msg) (log w) -> k <> toast_error).
Proof.
  vm_compute. split; [tauto|]. split; [reflexivity|]. split; [reflexivity|].
  intros k msg [H|[H|[H|[H|[H|[H|[H|[H|[H|[H|[H|[H|[]]]]]]]]]]]]];
    inversion H; discriminate.
Qed.

(** Only a rejected promise reaches the [catch]: then no insert is issued
    and the status is [error], but the toast is the rejection's own message,
    which does not name the table. *)
Lemma delete_rejection_unnamed :
  let w := snd (run (uploadData lgusDeleteRejects) stateRow1) in
  calls (log w) = [Delete "barangays"; Delete "lgus"] /\
  uploadStatus (state w) = error /\
  In (EvToast toast_error "Failed to fetch") (log w).
Proof. vm_compute. split; [reflexivity|]. split; [reflexivity|]. tauto. Qed.

(** The errors that deletes resolve with do not change what is done next:
    when no delete rejects, the four deletes are all issued. *)
Lemma clearAndInsert_deletes store regions provinces lgus barangays st :
  deletesResolve store ->
  exists rest,
    calls (trace (clearAndInsert store regions provinces lgus barangays) st) =
    deletePlan ++ rest.
Proof.
  intros Hd. unfold trace, run, clearAndInsert, bind.
  set (w := mkWorld st []).
  destruct (issues_clearTables store w) as [evs1 [L1 C1]].
  destruct (completes_clearTables store Hd w) as [a N].
  destruct (clearTables store w) as [c w1]. simpl in *. subst c.
  destruct (issues_insertCollections store regions provinces lgus barangays
              w1) as [evs2 [L2 _]].
  rewrite L2, L1. simpl. rewrite calls_app, C1. now exists (calls evs2).
Qed.

(** ** Inserts are guarded by the length checks *)

Lemma batchesFrom_nonempty barangays fuel i b :
  In b (batchesFrom barangays fuel i) -> b <> [].
Proof.
  intros Hin. apply In_nth_error in Hin. destruct Hin as [j Hj].
  apply batchesFrom_nth in Hj. destruct Hj as [-> Hlt].
  intros E. apply (f_equal (@length _)) in E.
  rewrite length_slice in E. pose proof BATCH_SIZE_pos.
  cbn [length] in E. lia.
Qed.

(** Each insert of the plan carries a non-empty collection or batch. *)
Definition guardedInsert (regions : list Region.t)
  (provinces : list Province.t) (lgus : list Lgu.t)
  (barangays : list Barangay.t) (table : string) (payload : Payload) : Prop :=
  (table = "regions" /\ payload = PRegions regions /\ regions <> []) \/
  (table = "provinces" /\ payload = PProvinces provinces /\ provinces <> [])
  \/ (table = "lgus" /\ payload = PLgus lgus /\ lgus <> []) \/
  (table = "barangays" /\ barangays <> [] /\
   exists b, payload = PBarangays b /\ b <> []).

Lemma positive_length_nonempty {A} (l : list A) :
  (0 <? length l)%nat = true -> l <> [].
Proof. destruct l; [discriminate | congruence]. Qed.

Lemma In_insertPlan regions provinces lgus barangays table payload :
  In (Insert table payload) (insertPlan regions provinces lgus barangays) ->
  guardedInsert regions provinces lgus barangays table payload.
Proof.
  unfold insertPlan, guardedInsert. rewrite !in_app_iff.
  intros [H|[H|[H|H]]].
  - destruct (0 <? length regions)%nat eqn:E; [|destruct H].
    destruct H as [[= <- <-]|[]]. left.
    auto using positive_length_nonempty.
  - destruct (0 <? length provinces)%nat eqn:E; [|destruct H].
    destruct H as [[= <- <-]|[]]. right. left.
    auto using positive_length_nonempty.
  - destruct (0 <? length lgus)%nat eqn:E; [|destruct H].
    destruct H as [[= <- <-]|[]]. right. right. left.
    auto using positive_length_nonempty.
  - destruct (0 <? length barangays)%nat eqn:E; [|destruct H].
    apply in_map_iff in H. destruct H as [b [[= <- <-] Hb]].
    right. right. right. split; [reflexivity|].
    split; [now apply positive_length_nonempty|].
    exists b. split; [reflexivity|]. eapply batchesFrom_nonempty; eauto.
Qed.

Lemma dedup_nil {V} (code : V -> string) (key : AddressRow -> string)
  (mkv : AddressRow -> V) (rows : list AddressRow) :
  (forall row, code (mkv row) = key row) ->
  dedup key mkv rows = [] -> rows = [].
Proof.
  intros Hc H. destruct rows as [|row rest]; [reflexivity|]. exfalso.
  pose proof (dedup_find code key mkv Hc (row :: rest) (key row)) as F.
  rewrite H in F. simpl find at 1 in F.
  destruct (find _ (rev (row :: rest))) as [r|] eqn:E; [discriminate|].
  assert (Hin : In row (rev (row :: rest))) by (apply -> in_rev; now left).
  pose proof (find_none _ _ E row Hin) as N. simpl in N.
  now rewrite String.eqb_refl in N.
Qed.

(** A collection is empty only when there are no rows. *)
Lemma empty_collection_no_rows (rs : list AddressRow) :
  regionsOf rs = [] \/ provincesOf rs = [] \/ lgusOf rs = [] \/
  barangaysOf rs = [] ->
  rs = [].
Proof.
  intros [H|[H|[H|H]]].
  - apply (dedup_nil Region.code regionCode toRegion); auto.
  - apply (dedup_nil Province.code provinceCode toProvince); auto.
  - apply (dedup_nil Lgu.code lguCode toLgu); auto.
  - unfold barangaysOf in H. now apply map_eq_nil in H.
Qed.

(** C10, as stated, fails: after a header-only file the report is valid
    and every collection is empty, yet no delete call is issued. *)
Lemma C10_deletes_refuted :
  valid (validation stateNoRows) = true /\
  regionsOf (rows (parseResults stateNoRows)) = [] /\
  barangaysOf (rows (parseResults stateNoRows)) = [] /\
  calls (trace (uploadData okStore) stateNoRows) = [] /\
  ~ In (Delete "regions") (calls (trace (uploadData okStore) stateNoRows)).
Proof. vm_compute. repeat split. tauto. Qed.

(** C10, amended: in the load itself, run on any four collections, an
    insert call for a table is issued only when its collection is not
    empty (for barangays, with a non-empty batch), while the four delete
    calls are issued whatever the collections are, as long as no delete
    rejects; in [uploadData] a collection is empty only when there are no
    rows, and then no call at all is issued. *)
Theorem C10_inserts_guarded store :
  (forall regions provinces lgus barangays st,
      let cs := calls (trace (clearAndInsert store regions provinces lgus
                                             barangays) st) in
      (forall table payload,
          In (Insert table payload) cs ->
          guardedInsert regions provinces lgus barangays table payload) /\
      (deletesResolve store -> firstn 4 cs = deletePlan)) /\
  (forall st,
      let rs := rows (parseResults st) in
      let cs := calls (trace (uploadData store) st) in
      (forall table payload,
          In (Insert table payload) cs ->
          guardedInsert (regionsOf rs) (provincesOf rs) (lgusOf rs)
                        (barangaysOf rs) table payload) /\
      (regionsOf rs = [] \/ provincesOf rs = [] \/ lgusOf rs = [] \/
       barangaysOf rs = [] -> cs = [])).
Proof.
  split.
  - intros regions provinces lgus barangays st cs. split.
    + intros table payload Hin.
      destruct (issues_clearAndInsert store regions provinces lgus barangays
                  (mkWorld st [])) as [evs [L C]].
      assert (P : exists rest,
                 deletePlan ++ insertPlan regions provinces lgus barangays =
                 cs ++ rest).
      { unfold cs, trace, run. rewrite L. simpl.
        destruct (fst (clearAndInsert store regions provinces lgus barangays
                         (mkWorld st [])));
          [exists []; now rewrite app_nil_r | exact C | exact C]. }
      destruct P as [rest P].
      assert (Hp : In (Insert table payload)
                      (deletePlan ++
                       insertPlan regions provinces lgus barangays)).
      { rewrite P. apply in_or_app. now left. }
      apply in_app_or in Hp. destruct Hp as [Hp|Hp].
      * simpl in Hp. intuition discriminate.
      * now apply In_insertPlan.
    + intros Hd.
      destruct (clearAndInsert_deletes store regions provinces lgus barangays
                  st Hd) as [rest E].
      unfold cs. rewrite E. reflexivity.
  - intros st rs cs. split.
    + intros table payload Hin.
      destruct (uploadData_prefix store st) as [rest P]. fold cs in P.
      assert (Hp : In (Insert table payload) (planOf st)).
      { rewrite P. apply in_or_app. now left. }
      unfold planOf in Hp. destruct (guardRejects st); [destruct Hp|].
      apply in_app_or in Hp. destruct Hp as [Hp|Hp].
      * simpl in Hp. intuition discriminate.
      * now apply In_insertPlan.
    + intros H. apply empty_collection_no_rows in H.
      unfold cs, trace. rewrite uploadData_rejected; [reflexivity|].
      apply guardRejects_true. now right.
Qed.

(** The load on four empty collections, and the upload of a header-only
    file. *)
Lemma C10_inserts_guarded_witness :
  firstn 4 (calls (trace (clearAndInsert okStore [] [] [] []) initialState)) =
    deletePlan /\
  calls (trace (uploadData okStore) stateNoRows) = [].
Proof.
  split.
  - apply (proj1 (C10_inserts_guarded okStore) [] [] [] [] initialState).
    exact (proj1 okStore_noFailure).
  - apply (proj2 (C10_inserts_guarded okStore) stateNoRows).
    left. reflexivity.
Defined.

(** One valid row, a store that never fails: the split at the Province
    insert. *)
Lemma C8_order_witness :
  let cs := calls (trace (uploadData okStore) stateRow1) in
  let pre := deletePlan ++ [Insert "regions" (PRegions [Region.mk "01" "R1"])] in
  let post :=
    [Insert "lgus" (PLgus [Lgu.mk "L1" "Lgu1" "P1"]);
     Insert "barangays" (PBarangays [Barangay.mk "B1" "Brgy1" "P1" "L1"])] in
  cs = pre ++ Insert "provinces" (PProvinces [Province.mk "P1" "Prov1" "01"])
           :: post /\
  (exists pre', pre = deletePlan ++ pre' /\
                Forall (fun c => isInsert c = true) (pre' ++ post)) /\
  (forall payload', ~ In (Insert "regions" payload') post).
Proof.
  intros cs pre post.
  assert (E : cs = pre ++ Insert "provinces"
                             (PProvinces [Province.mk "P1" "Prov1" "01"])
                           :: post) by reflexivity.
  destruct (proj1 (proj2 (C8_order okStore stateRow1)) _ _ _ _ E)
    as [H1 [_ H3]].
  split; [exact E|]. split; [exact H1 | exact (H3 eq_refl)].
Defined.

(** * Further properties of the code *)

(** ** The load as the execution of a plan, step by step *)

(** A step of the load: the call, and for a call whose [error] is read
    the prefix of the message thrown when it is set. *)
Definition Step : Type := (StoreCall * option string)%type.

(** What a step throws on a response, if anything. *)
Definition stepThrows (s : Step) (r : Response) : option Thrown :=
  match r with
  | Rejected e => Some e
  | Resolved None => None
  | Resolved (Some message) =>
      match snd s with
      | Some prefix => Some (ErrorObj (prefix ++ message)%string)
      | None => None
      end
  end.

(** The calls made with their responses, and the value thrown if any, when
    the steps are taken in order from call history [h] until one throws. *)
Fixpoint simulate (store : Store) (h : list StoreCall) (plan : list Step)
  : list (StoreCall * Response) * option Thrown :=
  match plan with
  | [] => ([], None)
  | s :: rest =>
      let r := store h (fst s) in
      match stepThrows s r with
      | Some e => ([(fst s, r)], Some e)
      | None =>
          let res := simulate store (h ++ [fst s]) rest in
          ((fst s, r) :: fst res, snd res)
      end
  end.

Definition toEvent (cr : StoreCall * Response) : Event :=
  EvCall (fst cr) (snd cr).

Lemma calls_toEvent rs : calls (map toEvent rs) = map fst rs.
Proof. induction rs as [|[c r] rs IH]; simpl; congruence. Qed.

Lemma simulate_app store p1 p2 h :
  simulate store h (p1 ++ p2) =
  match snd (simulate store h p1) with
  | Some e => simulate store h p1
  | None =>
      let res := simulate store
                   (h ++ map fst (fst (simulate store h p1))) p2 in
      (fst (simulate store h p1) ++ fst res, snd res)
  end.
Proof.
  revert h. induction p1 as [|s p1 IH]; intros h; simpl.
  - rewrite app_nil_r. now destruct (simulate store h p2).
  - destruct (stepThrows s (store h (fst s))); [reflexivity|].
    rewrite IH. simpl.
    destruct (snd (simulate store (h ++ [fst s]) p1)) eqn:E; simpl.
    + now rewrite E.
    + now rewrite <- app_assoc.
Qed.

(** [follows store m plan]: [m] does what taking the steps of [plan] does,
    and nothing else. *)
Definition follows {A} (store : Store) (m : Eff A) (plan : list Step)
  : Prop :=
  forall w,
    let res := simulate store (calls (log w)) plan in
    snd (m w) = mkWorld (state w) (log w ++ map toEvent (fst res)) /\
    match snd res with
    | None => exists a, fst (m w) = Normal a
    | Some e => fst (m w) = Abrupt e
    end.

Lemma follows_ret {A} store (a : A) : follows store (ret a) [].
Proof.
  intros w. simpl. rewrite app_nil_r. split; [now destruct w | now exists a].
Qed.

Lemma follows_bind {A B} store (m : Eff A) (k : A -> Eff B) p1 p2 :
  follows store m p1 -> (forall a, follows store (k a) p2) ->
  follows store (bind m k) (p1 ++ p2).
Proof.
  intros Hm Hk w. unfold bind. cbv zeta. rewrite simulate_app.
  destruct (Hm w) as [W1 C1].
  destruct (simulate store (calls (log w)) p1) as [rs1 [e|]] eqn:S1;
    simpl in *.
  - destruct (m w) as [c w1]. simpl in *. subst. auto.
  - destruct C1 as [a Ha]. destruct (m w) as [c w1]. simpl in *. subst.
    destruct (Hk a (mkWorld (state w) (log w ++ map toEvent rs1)))
      as [W2 C2].
    simpl in W2, C2. rewrite calls_app, calls_toEvent in W2, C2.
    rewrite W2, map_app, app_assoc. auto.
Qed.

Lemma follows_unchecked store c : follows store (await store c) [(c, None)].
Proof.
  intros w. unfold await. simpl.
  destruct (store (calls (log w)) c) as [[message|]|e]; simpl; eauto.
Qed.

Lemma follows_checked store table payload prefix :
  follows store (insertOrThrow store table payload prefix)
          [(Insert table payload, Some prefix)].
Proof.
  intros w. unfold insertOrThrow, bind, await. simpl.
  destruct (store (calls (log w)) (Insert table payload)) as [[message|]|e];
    simpl; eauto.
Qed.

Definition batchErrorPrefix (number : nat) : string :=
  ("Error inserting barangays batch " ++ nat_to_string number ++ ": ")%string.

(** The steps of the [for] loop from index [i] on, within [fuel]
    iterations. *)
Fixpoint batchStepsFrom (barangays : list Barangay.t) (fuel i : nat)
  : list Step :=
  if (i <? length barangays)%nat then
    match fuel with
    | 0 => []
    | S fuel' =>
        (insertBatch (slice i (i + BATCH_SIZE) barangays),
         Some (batchErrorPrefix (i / BATCH_SIZE + 1)))
          :: batchStepsFrom barangays fuel' (i + BATCH_SIZE)
    end
  else [].

(** The deletes: their result is not read. *)
Definition deleteSteps : list Step := map (fun c => (c, None)) deletePlan.

Definition insertSteps (regions : list Region.t) (provinces : list Province.t)
  (lgus : list Lgu.t) (barangays : list Barangay.t) : list Step :=
  (if (0 <? length regions)%nat
   then [(Insert "regions" (PRegions regions),
          Some "Error inserting regions: ")] else []) ++
  (if (0 <? length provinces)%nat
   then [(Insert "provinces" (PProvinces provinces),
          Some "Error inserting provinces: ")] else []) ++
  (if (0 <? length lgus)%nat
   then [(Insert "lgus" (PLgus lgus), Some "Error inserting LGUs: ")]
   else []) ++
  (if (0 <? length barangays)%nat
   then batchStepsFrom barangays (length barangays) 0 else []).

Definition stepsOf (st : AppState) : list Step :=
  deleteSteps ++
  insertSteps (regionsOf (rows (parseResults st)))
              (provincesOf (rows (parseResults st)))
              (lgusOf (rows (parseResults st)))
              (barangaysOf (rows (parseResults st))).

Lemma follows_insertBarangays store barangays fuel i :
  length barangays <= i + fuel * BATCH_SIZE ->
  follows store (insertBarangays store barangays fuel i)
          (batchStepsFrom barangays fuel i).
Proof.
  revert i. induction fuel as [|fuel IH]; intros i Hfuel;
    cbn [insertBarangays batchStepsFrom];
    destruct (i <? length barangays)%nat eqn:E; try apply follows_ret.
  - apply Nat.ltb_lt in E. rewrite Nat.mul_0_l in Hfuel. exfalso. lia.
  - change (?s :: ?l) with ([s] ++ l).
    apply follows_bind; [apply follows_checked|].
    intros _. apply IH. rewrite Nat.mul_succ_l in Hfuel. lia.
Qed.

Lemma follows_clearAndInsert store regions provinces lgus barangays :
  follows store (clearAndInsert store regions provinces lgus barangays)
          (deleteSteps ++ insertSteps regions provinces lgus barangays).
Proof.
  apply follows_bind.
  - unfold clearTables, deleteSteps, deletePlan. cbn [map].
    change (follows store
              (await store (Delete "barangays") ;;
               await store (Delete "lgus") ;;
               await store (Delete "provinces") ;;
               await store (Delete "regions"))
              ([(Delete "barangays", None)] ++ [(Delete "lgus", None)] ++
               [(Delete "provinces", None)] ++ [(Delete "regions", None)])).
    repeat (apply follows_bind; [apply follows_unchecked | intros _]).
    apply follows_unchecked.
  - intros _. unfold insertCollections, insertSteps.
    repeat (apply follows_bind;
            [match goal with |- follows _ (if ?b then _ else _) _ =>
               destruct b; [apply follows_checked | apply follows_ret]
             end | intros _]).
    destruct (0 <? length barangays)%nat; [|apply follows_ret].
    apply follows_insertBarangays, enough_fuel.
Qed.

(** The message shown for a thrown value. *)
Definition thrownMessage (e : Thrown) : string :=
  match e with
  | ErrorObj message => message
  | NonError => "Failed to update address data"
  end.

(** What is logged once the load is over. *)
Definition reportEvents (out : option Thrown) : list Event :=
  match out with
  | None =>
      [EvSetUploadStatus success;
       EvToast toast_success "Address data updated successfully!"]
  | Some e =>
      [EvConsoleError e; EvSetUploadStatus error;
       EvToast toast_error (thrownMessage e)]
  end.

Definition finalStatus (out : option Thrown) : UploadStatus :=
  match out with None => success | Some _ => error end.

Lemma uploadData_simulated store st :
  guardRejects st = false ->
  let res := simulate store [] (stepsOf st) in
  run (uploadData store) st =
  (Normal tt,
   mkWorld (withStatus (finalStatus (snd res)) st)
           (log (startWorld st) ++ map toEvent (fst res)
              ++ reportEvents (snd res))).
Proof.
  intros G res. rewrite uploadData_accepted by assumption.
  destruct (follows_clearAndInsert store
              (regionsOf (rows (parseResults st)))
              (provincesOf (rows (parseResults st)))
              (lgusOf (rows (parseResults st)))
              (barangaysOf (rows (parseResults st)))
              (startWorld st)) as [W C].
  fold (load store st) in W, C. rewrite calls_startWorld in W, C.
  fold (stepsOf st) in W, C. fold res in W, C.
  destruct (load store st (startWorld st)) as [c w]. simpl in W, C. subst w.
  destruct (snd res) as [e|].
  - subst c. reflexivity.
  - destruct C as [[] ->]. reflexivity.
Qed.

(** An accepted upload sets the status to [uploading], shows the info
    toast, takes the steps of the plan in order up to and including the
    first one that throws, and reports: [success] with its toast when none
    threw, otherwise the console error, [error] and the toast carrying the
    message of what was thrown.  Only the status changes in the state. *)
Theorem uploadData_runs_plan store st :
  guardRejects st = false ->
  let res := simulate store [] (stepsOf st) in
  fst (run (uploadData store) st) = Normal tt /\
  trace (uploadData store) st =
    [EvSetUploadStatus uploading;
     EvToast toast_info "Processing data, please wait..."]
      ++ map toEvent (fst res) ++ reportEvents (snd res) /\
  finalState (uploadData store) st = withStatus (finalStatus (snd res)) st.
Proof.
  intros G res. unfold trace, finalState.
  rewrite uploadData_simulated by assumption. fold res.
  split; [reflexivity|]. split; reflexivity.
Qed.

Definition stateRow1Uploaded : AppState :=
  finalState (uploadData okStore) stateRow1.

Lemma uploadData_runs_plan_witness :
  uploadStatus stateRow1Uploaded = success.
Proof.
  unfold stateRow1Uploaded.
  rewrite (proj2 (proj2 (uploadData_runs_plan okStore stateRow1 eq_refl))).
  reflexivity.
Defined.

(** *** Which message a failing insert throws *)

(** The prefix of the message thrown for a failing insert into [table];
    [batchNumber] only matters for barangays. *)
Definition insertErrorPrefix (table : string) (batchNumber : nat) : string :=
  if table =? "regions" then "Error inserting regions: "
  else if table =? "provinces" then "Error inserting provinces: "
  else if table =? "lgus" then "Error inserting LGUs: "
  else batchErrorPrefix batchNumber.

(** The prefix attached to call [c] when the calls [before] have been
    issued: none for a delete; for a barangay insert the batch number is
    one more than the number of barangay inserts before it. *)
Definition prefixAt (before : list StoreCall) (c : StoreCall)
  : option string :=
  match c with
  | Delete _ => None
  | Insert table _ =>
      Some (insertErrorPrefix table (length (barangayBatches before) + 1))
  end.

Fixpoint wellPrefixed (before : list StoreCall) (plan : list Step) : Prop :=
  match plan with
  | [] => True
  | s :: rest =>
      snd s = prefixAt before (fst s) /\
      wellPrefixed (before ++ [fst s]) rest
  end.

Lemma wellPrefixed_app before p1 p2 :
  wellPrefixed before p1 ->
  wellPrefixed (before ++ map fst p1) p2 ->
  wellPrefixed before (p1 ++ p2).
Proof.
  revert before. induction p1 as [|s p1 IH]; intros before H1 H2; simpl in *.
  - now rewrite app_nil_r in H2.
  - destruct H1 as [Hs H1]. split; [assumption|].
    apply IH; [assumption|]. now rewrite <- app_assoc.
Qed.

Lemma wellPrefixed_batches barangays fuel q before :
  length (barangayBatches before) = q ->
  wellPrefixed before (batchStepsFrom barangays fuel (q * BATCH_SIZE)).
Proof.
  pose proof BATCH_SIZE_pos as Hpos.
  revert q before. induction fuel as [|fuel IH]; intros q before Hq;
    cbn [batchStepsFrom];
    destruct (q * BATCH_SIZE <? length barangays)%nat; cbn [wellPrefixed];
    auto.
  split.
  - cbn [fst snd insertBatch prefixAt]. rewrite Hq, Nat.div_mul by lia.
    reflexivity.
  - rewrite <- Nat.mul_succ_l. apply IH.
    rewrite barangayBatches_app, length_app, Hq. cbn. lia.
Qed.

Lemma wellPrefixed_stepsOf st : wellPrefixed [] (stepsOf st).
Proof.
  unfold stepsOf, insertSteps.
  set (bs := batchStepsFrom _ _ 0).
  assert (Hb : forall before,
             length (barangayBatches before) = 0 -> wellPrefixed before bs).
  { intros before H. apply (wellPrefixed_batches _ _ 0 before H). }
  clearbody bs.
  destruct (0 <? length (regionsOf _))%nat,
    (0 <? length (provincesOf _))%nat, (0 <? length (lgusOf _))%nat,
    (0 <? length (barangaysOf _))%nat;
    cbn; repeat split; try apply Hb; reflexivity.
Qed.

Lemma stepThrows_failed before c r :
  stepThrows (c, prefixAt before c) r = None <-> failed c r = false.
Proof. destruct c, r as [[m|]|e]; simpl; split; congruence. Qed.

(** Where a call stands among those made, it got the store's answer to the
    calls before it, and if it threw it is the last one. *)
Lemma simulate_at store plan h a c r b :
  wellPrefixed h plan ->
  fst (simulate store h plan) = a ++ (c, r) :: b ->
  r = store (h ++ map fst a) c /\
  match stepThrows (c, prefixAt (h ++ map fst a) c) r with
  | Some e => b = [] /\ snd (simulate store h plan) = Some e
  | None => True
  end.
Proof.
  revert h a. induction plan as [|[c0 p0] plan IH]; intros h a Hw E;
    simpl in *.
  - destruct a; discriminate.
  - destruct Hw as [Hp Hw]. subst p0.
    destruct (stepThrows (c0, prefixAt h c0) (store h c0)) as [e|] eqn:T;
      simpl in E.
    + destruct a as [|x a]; simpl in E;
        [|injection E as _ E; destruct a; discriminate].
      injection E as <- <- <-. simpl. rewrite app_nil_r, T. auto.
    + destruct a as [|x a]; simpl in E.
      * injection E as <- <- <-. simpl. rewrite app_nil_r, T. auto.
      * injection E as <- E. specialize (IH _ _ Hw E). simpl.
        rewrite <- app_assoc in IH. exact IH.
Qed.

Lemma simulate_result store plan h :
  wellPrefixed h plan ->
  match snd (simulate store h plan) with
  | None =>
      map fst (fst (simulate store h plan)) = map fst plan /\
      Forall (fun cr => failed (fst cr) (snd cr) = false)
             (fst (simulate store h plan))
  | Some e =>
      exists a c r,
        fst (simulate store h plan) = a ++ [(c, r)] /\
        failed c r = true
  end.
Proof.
  revert h. induction plan as [|[c0 p0] plan IH]; intros h Hw; simpl in *.
  - auto.
  - destruct Hw as [Hp Hw]. subst p0.
    destruct (stepThrows (c0, prefixAt h c0) (store h c0)) as [e|] eqn:T;
      simpl.
    + exists [], c0, (store h c0). split; [reflexivity|].
      destruct (failed c0 (store h c0)) eqn:F; [reflexivity|].
      apply (stepThrows_failed h) in F. congruence.
    + specialize (IH _ Hw).
      apply (stepThrows_failed h) in T.
      destruct (snd (simulate store (h ++ [c0]) plan)).
      * destruct IH as [a [c [r [E F]]]].
        exists ((c0, store h c0) :: a), c, r. rewrite E. auto.
      * destruct IH as [E F]. split; [now rewrite E|].
        constructor; assumption.
Qed.

(** *** Reading the log of an accepted upload *)

Lemma split_in_middle (X Y Z l1 l2 : list Event) c r :
  calls X = [] -> calls Z = [] ->
  X ++ Y ++ Z = l1 ++ EvCall c r :: l2 ->
  exists a b, Y = a ++ EvCall c r :: b /\ l1 = X ++ a /\ l2 = b ++ Z.
Proof.
  intros HX HZ. revert l1. induction X as [|x X IHX]; intros l1 E.
  - simpl in E. clear HX. revert l1 E.
    induction Y as [|y Y IHY]; intros l1 E; simpl in E.
    + exfalso. rewrite E, calls_app in HZ. simpl in HZ.
      destruct (calls l1); discriminate.
    + destruct l1 as [|z l1]; simpl in E; injection E as -> E.
      * exists [], Y. subst. auto.
      * destruct (IHY _ E) as [a [b [-> [-> ->]]]].
        exists (z :: a), b. auto.
  - destruct l1 as [|z l1]; simpl in E; injection E as -> E.
    + simpl in HX. discriminate.
    + assert (HX' : calls X = []) by (now apply calls_cons_nil in HX).
      destruct (IHX HX' _ E) as [a [b [-> [-> ->]]]].
      exists a, b. auto.
Qed.

Lemma toEvent_split rs a' c r b' :
  map toEvent rs = a' ++ EvCall c r :: b' ->
  exists a b, rs = a ++ (c, r) :: b /\ a' = map toEvent a /\
              b' = map toEvent b.
Proof.
  intros E. apply map_eq_app in E. destruct E as [a [t [-> [<- E]]]].
  apply map_eq_cons in E. destruct E as [[c' r'] [b [-> [E <-]]]].
  injection E as -> ->. exists a, b. auto.
Qed.

Lemma calls_reportEvents out : calls (reportEvents out) = [].
Proof. now destruct out. Qed.

(** In the log of an accepted upload, a call sits among the calls of the
    simulation, with what follows it. *)
Lemma accepted_trace_split store st l1 c r l2 :
  guardRejects st = false ->
  trace (uploadData store) st = l1 ++ EvCall c r :: l2 ->
  let res := simulate store [] (stepsOf st) in
  exists a b,
    fst res = a ++ (c, r) :: b /\
    calls l1 = map fst a /\
    l2 = map toEvent b ++ reportEvents (snd res).
Proof.
  intros G E res. unfold trace in E.
  rewrite uploadData_simulated in E by assumption. cbn [snd log] in E.
  fold res in E.
  apply split_in_middle in E;
    [|apply calls_startWorld | apply calls_reportEvents].
  destruct E as [a' [b' [E [-> ->]]]].
  apply toEvent_split in E. destruct E as [a [b [E [-> ->]]]].
  exists a, b. rewrite calls_app, calls_startWorld, calls_toEvent. auto.
Qed.

Lemma rejected_trace_no_call store st l1 c r l2 :
  guardRejects st = true ->
  trace (uploadData store) st <> l1 ++ EvCall c r :: l2.
Proof.
  intros G E. unfold trace in E. rewrite uploadData_rejected in E by assumption.
  simpl in E. destruct l1 as [|x [|y l1]]; discriminate.
Qed.

Lemma batchStepsFrom_calls barangays fuel i :
  map fst (batchStepsFrom barangays fuel i) =
  map insertBatch (batchesFrom barangays fuel i).
Proof.
  revert i. induction fuel as [|fuel IH]; intros i;
    cbn [batchStepsFrom batchesFrom];
    destruct (i <? length barangays)%nat; cbn [map fst]; congruence.
Qed.

Lemma stepsOf_calls st :
  guardRejects st = false -> map fst (stepsOf st) = planOf st.
Proof.
  intros G. unfold planOf, stepsOf, insertSteps, insertPlan. rewrite G.
  rewrite !map_app.
  destruct (0 <? length (regionsOf _))%nat,
    (0 <? length (provincesOf _))%nat, (0 <? length (lgusOf _))%nat,
    (0 <? length (barangaysOf _))%nat;
    cbn [map fst]; rewrite ?batchStepsFrom_calls; reflexivity.
Qed.

(** When an insert resolves with an error, nothing else is sent: the
    console gets the thrown error, the status becomes [error] and the toast
    shows the store's message behind a prefix that names the collection,
    and for barangays the number of the batch, which is the number of
    barangay inserts issued so far. *)
Theorem insert_error_reported store st l1 table payload message l2 :
  trace (uploadData store) st =
    l1 ++ EvCall (Insert table payload) (Resolved (Some message)) :: l2 ->
  let msg :=
    (insertErrorPrefix table (length (barangayBatches (calls l1)) + 1)
       ++ message)%string in
  l2 = [EvConsoleError (ErrorObj msg); EvSetUploadStatus error;
        EvToast toast_error msg] /\
  uploadStatus (finalState (uploadData store) st) = error.
Proof.
  intros E msg. destruct (guardRejects st) eqn:G.
  { exfalso. eapply rejected_trace_no_call; eauto. }
  destruct (accepted_trace_split _ _ _ _ _ _ G E) as [a [b [S [Hc ->]]]].
  destruct (simulate_at store (stepsOf st) [] a _ _ b
              (wellPrefixed_stepsOf st) S) as [_ T].
  cbn [app stepThrows prefixAt snd] in T. rewrite <- Hc in T. fold msg in T.
  destruct T as [-> T].
  unfold finalState. rewrite uploadData_simulated by assumption.
  rewrite T. auto.
Qed.

(** The store accepts everything except inserts into [barangays]. *)
Definition barangayInsertFails : Store :=
  fun _ c =>
    match c with
    | Insert table _ =>
        if table =? "barangays" then Resolved (Some "timeout")
        else Resolved None
    | Delete _ => Resolved None
    end.

Lemma insert_error_reported_witness :
  skipn 10 (trace (uploadData barangayInsertFails) stateRow1) =
  [EvConsoleError (ErrorObj "Error inserting barangays batch 1: timeout");
   EvSetUploadStatus error;
   EvToast toast_error "Error inserting barangays batch 1: timeout"].
Proof.
  apply (insert_error_reported barangayInsertFails stateRow1
           (firstn 9 (trace (uploadData barangayInsertFails) stateRow1))
           "barangays" (PBarangays [Barangay.mk "B1" "Brgy1" "P1" "L1"])
           "timeout").
  reflexivity.
Defined.

(** When a store call rejects, nothing else is sent: the status becomes
    [error] and the toast shows the message of the rejection if it is an
    [Error], and a fixed text otherwise. *)
Theorem rejection_reported store st l1 c e l2 :
  trace (uploadData store) st = l1 ++ EvCall c (Rejected e) :: l2 ->
  l2 = [EvConsoleError e; EvSetUploadStatus error;
        EvToast toast_error
          (match e with
           | ErrorObj message => message
           | NonError => "Failed to update address data"
           end)] /\
  uploadStatus (finalState (uploadData store) st) = error.
Proof.
  intros E. destruct (guardRejects st) eqn:G.
  { exfalso. eapply rejected_trace_no_call; eauto. }
  destruct (accepted_trace_split _ _ _ _ _ _ G E) as [a [b [S [Hc ->]]]].
  destruct (simulate_at store (stepsOf st) [] a _ _ b
              (wellPrefixed_stepsOf st) S) as [_ T].
  cbn [stepThrows] in T. destruct T as [-> T].
  unfold finalState. rewrite uploadData_simulated by assumption.
  rewrite T. auto.
Qed.

(** The first delete rejects with a value that is no [Error]. *)
Definition firstDeleteRejects : Store :=
  fun h _ => match h with [] => Rejected NonError | _ => Resolved None end.

Lemma rejection_reported_witness :
  skipn 3 (trace (uploadData firstDeleteRejects) stateRow1) =
  [EvConsoleError NonError; EvSetUploadStatus error;
   EvToast toast_error "Failed to update address data"].
Proof.
  apply (rejection_reported firstDeleteRejects stateRow1
           (firstn 2 (trace (uploadData firstDeleteRejects) stateRow1))
           (Delete "barangays") NonError).
  reflexivity.
Defined.

(** An accepted upload ends in [success] or in [error], never in
    [uploading]: in [success] when the whole plan was issued and no call
    failed, in [error] when the last call issued failed. *)
Theorem upload_ends_success_or_error store st :
  guardRejects st = false ->
  let t := trace (uploadData store) st in
  let fs := uploadStatus (finalState (uploadData store) st) in
  (fs = success /\ calls t = planOf st /\
   forall c r, In (EvCall c r) t -> failed c r = false) \/
  (fs = error /\
   exists l1 c r l2,
     t = l1 ++ EvCall c r :: l2 /\ failed c r = true /\ calls l2 = []).
Proof.
  intros G t fs. unfold t, fs, finalState, trace.
  rewrite uploadData_simulated by assumption. cbn [snd state log].
  pose proof (simulate_result store (stepsOf st) []
                (wellPrefixed_stepsOf st)) as R.
  destruct (simulate store [] (stepsOf st)) as [rs [e|]]; simpl in R |- *.
  - right. split; [reflexivity|].
    destruct R as [a [c [r [-> F]]]].
    exists (EvSetUploadStatus uploading
              :: EvToast toast_info "Processing data, please wait..."
              :: map toEvent a), c, r,
      [EvConsoleError e; EvSetUploadStatus error;
       EvToast toast_error (thrownMessage e)].
    rewrite map_app, <- app_assoc. auto.
  - left. destruct R as [Hc HF]. split; [reflexivity|]. split.
    + rewrite calls_app, calls_toEvent, Hc. simpl. rewrite app_nil_r.
      now apply stepsOf_calls.
    + intros c r [H|[H|H]]; try discriminate.
      apply in_app_or in H. destruct H as [H|[H|[H|[]]]]; try discriminate.
      apply in_map_iff in H. destruct H as [[c' r'] [E H]].
      injection E as -> ->.
      rewrite Forall_forall in HF. apply (HF _ H).
Qed.

Lemma upload_ends_success_or_error_witness :
  uploadStatus (finalState (uploadData barangayInsertFails) stateRow1) = error.
Proof.
  destruct (upload_ends_success_or_error barangayInsertFails stateRow1
              eq_refl) as [[H _]|[H _]]; [discriminate H | exact H].
Defined.

(** [uploadData] never touches the parsed rows or the report, whatever
    the outcome: running it again would follow the same plan. *)
Theorem upload_keeps_report store st :
  parseResults (finalState (uploadData store) st) = parseResults st /\
  validation (finalState (uploadData store) st) = validation st /\
  planOf (finalState (uploadData store) st) = planOf st.
Proof.
  unfold finalState. destruct (guardRejects st) eqn:G.
  - rewrite uploadData_rejected by assumption. auto.
  - rewrite uploadData_simulated by assumption. cbn [snd state].
    repeat split.
Qed.

(** *** What has been sent when the load stops *)

Lemma firstn_plus {A} (n m : nat) (l : list A) :
  firstn (n + m) l = firstn n l ++ firstn m (skipn n l).
Proof.
  revert l. induction n as [|n IH]; intros l; [reflexivity|].
  destruct l as [|x l]; simpl; [now rewrite firstn_nil | now rewrite IH].
Qed.

Lemma prefix_firstn {A} (p rest : list A) :
  p = firstn (length p) (p ++ rest).
Proof.
  rewrite firstn_app, Nat.sub_diag, firstn_all. simpl.
  now rewrite app_nil_r.
Qed.

Lemma batchesFrom_firstn barangays fuel i j :
  length barangays <= i + fuel * BATCH_SIZE ->
  concat (firstn j (batchesFrom barangays fuel i)) =
  firstn (j * BATCH_SIZE) (skipn i barangays).
Proof.
  revert i j. induction fuel as [|fuel IH]; intros i j Hfuel;
    cbn [batchesFrom]; destruct (i <? length barangays)%nat eqn:E.
  - apply Nat.ltb_lt in E. rewrite Nat.mul_0_l in Hfuel. exfalso. lia.
  - apply Nat.ltb_ge in E.
    now rewrite firstn_nil, skipn_all2, firstn_nil.
  - destruct j as [|j]; [reflexivity|]. cbn [firstn concat].
    rewrite IH by (rewrite Nat.mul_succ_l in Hfuel; lia).
    rewrite Nat.mul_succ_l, (Nat.add_comm (j * BATCH_SIZE)), firstn_plus.
    unfold slice. replace (i + BATCH_SIZE - i) with BATCH_SIZE by lia.
    now rewrite skipn_skipn, (Nat.add_comm BATCH_SIZE).
  - apply Nat.ltb_ge in E.
    now rewrite firstn_nil, skipn_all2, firstn_nil.
Qed.

(** Whatever the store answers and wherever the load stops, the barangay
    records sent so far are an initial segment of the collection, cut at a
    multiple of the batch size (or the whole collection): no record is
    sent twice, skipped or reordered. *)
Theorem sent_batches_initial_segment store st :
  let bs := barangayBatches (calls (trace (uploadData store) st)) in
  concat bs =
  firstn (length bs * BATCH_SIZE) (barangaysOf (rows (parseResults st))).
Proof.
  intros bs. destruct (uploadData_batches_prefix store st) as [rest P].
  fold bs in P. unfold planOf in P.
  destruct (guardRejects st).
  { simpl in P. symmetry in P. apply app_eq_nil in P.
    destruct P as [-> _]. reflexivity. }
  rewrite barangayBatches_plan in P.
  destruct (0 <? length (barangaysOf (rows (parseResults st))))%nat.
  - assert (Hbs : bs = firstn (length bs)
                             (batchesFrom
                                (barangaysOf (rows (parseResults st)))
                                (length
                                   (barangaysOf (rows (parseResults st))))
                                0))
      by (rewrite P; apply prefix_firstn).
    rewrite Hbs at 1. now rewrite batchesFrom_firstn by apply enough_fuel.
  - symmetry in P. apply app_eq_nil in P. destruct P as [-> _]. reflexivity.
Qed.

(** ** The extracted collections, taken together *)

Lemma In_map_set {V} k (v : V) m kv :
  In kv (map_set k v m) -> kv = (k, v) \/ In kv m.
Proof.
  induction m as [|[k' v'] m IH]; simpl.
  - intros [<-|[]]. now left.
  - destruct (String.eqb k' k) eqn:E.
    + apply String.eqb_eq in E. subst k'. intros [<-|H]; auto.
    + intros [<-|H]; auto. destruct (IH H); auto.
Qed.

Lemma In_fold_set_entry {V} (entries m : list (string * V)) kv :
  In kv (fold_left set_entry entries m) -> In kv entries \/ In kv m.
Proof.
  revert m. induction entries as [|e es IH]; intros m H; simpl in *.
  - now right.
  - apply IH in H. destruct H as [H|H]; [left; now right|].
    unfold set_entry in H. apply In_map_set in H.
    destruct H as [->|H]; [|now right].
    left. left. now destruct e.
Qed.

(** Every record of a deduplicated collection is built from some row. *)
Lemma dedup_from_row {V} (key : AddressRow -> string) (mkv : AddressRow -> V)
  rows v :
  In v (dedup key mkv rows) -> exists row, In row rows /\ v = mkv row.
Proof.
  unfold dedup, map_values, new_Map. rewrite in_map_iff.
  intros [[k v'] [<- H]]. apply In_fold_set_entry in H.
  destruct H as [H|[]]. apply in_map_iff in H.
  destruct H as [row [E H]]. injection E as _ <-. eauto.
Qed.

(** The codes of a deduplicated collection are the unique keys of the
    rows, in order of first occurrence. *)
Lemma dedup_codes {V} (code : V -> string) (key : AddressRow -> string)
  (mkv : AddressRow -> V) rows :
  (forall row, code (mkv row) = key row) ->
  map code (dedup key mkv rows) = new_Set (map key rows).
Proof.
  intros Hc. unfold dedup. rewrite (keyed_codes code).
  - now rewrite new_Map_keys, map_map.
  - apply keyed_fold_set_entry; [|constructor].
    now apply keyed_entries.
Qed.

Lemma dedup_has_key {V} (code : V -> string) (key : AddressRow -> string)
  (mkv : AddressRow -> V) rows row :
  (forall row, code (mkv row) = key row) ->
  In row rows -> In (key row) (map code (dedup key mkv rows)).
Proof.
  intros Hc H. rewrite (dedup_codes code) by assumption.
  apply new_Set_In. now apply in_map.
Qed.

(** The payloads are referentially closed: the region code of every
    province sent is the code of a region sent, the province code of every
    lgu sent is the code of a province sent, and the province and lgu codes
    of every barangay sent are codes of a province and of an lgu sent. *)
Theorem extraction_referentially_closed (rows : list AddressRow) :
  (forall p, In p (provincesOf rows) ->
             In (Province.region_code p)
                (map Region.code (regionsOf rows))) /\
  (forall l, In l (lgusOf rows) ->
             In (Lgu.province_code l)
                (map Province.code (provincesOf rows))) /\
  (forall b, In b (barangaysOf rows) ->
             In (Barangay.province_code b)
                (map Province.code (provincesOf rows)) /\
             In (Barangay.lgu_code b) (map Lgu.code (lgusOf rows))).
Proof.
  split; [|split].
  - intros p H. apply (dedup_from_row provinceCode toProvince) in H.
    destruct H as [row [H ->]].
    apply (dedup_has_key Region.code regionCode toRegion); auto.
  - intros l H. apply (dedup_from_row lguCode toLgu) in H.
    destruct H as [row [H ->]].
    apply (dedup_has_key Province.code provinceCode toProvince); auto.
  - intros b H. unfold barangaysOf in H. apply in_map_iff in H.
    destruct H as [row [<- H]]. split.
    + apply (dedup_has_key Province.code provinceCode toProvince); auto.
    + apply (dedup_has_key Lgu.code lguCode toLgu); auto.
Qed.

Lemma extraction_referentially_closed_witness :
  In "01" (map Region.code (regionsOf [rowFirst; rowSecond])).
Proof.
  apply (proj1 (extraction_referentially_closed [rowFirst; rowSecond])
           (Province.mk "P1" "Prov1" "01")).
  left. reflexivity.
Defined.

(** The counts shown after validation are the sizes of the payloads the
    upload will send for regions, provinces and lgus (whose codes are the
    unique-code sets of validation, in the same order); only for
    barangays may the count be smaller than the payload. *)
Theorem stats_match_collections data errs fields st :
  missingColumnsOf fields = [] ->
  let s := stats (validation (finalState (complete data errs fields) st)) in
  (regions s = length (regionsOf data) /\
   provinces s = length (provincesOf data) /\
   lgus s = length (lgusOf data) /\
   barangays s <= length (barangaysOf data)) /\
  (map Region.code (regionsOf data) = new_Set (map regionCode data) /\
   map Province.code (provincesOf data) = new_Set (map provinceCode data) /\
   map Lgu.code (lgusOf data) = new_Set (map lguCode data)).
Proof.
  intros H. unfold finalState. rewrite complete_present by assumption.
  cbn [snd state validation stats statsOf regions provinces lgus barangays].
  pose proof (dedup_codes Region.code regionCode toRegion data
                (fun _ => eq_refl)) as HR.
  pose proof (dedup_codes Province.code provinceCode toProvince data
                (fun _ => eq_refl)) as HP.
  pose proof (dedup_codes Lgu.code lguCode toLgu data
                (fun _ => eq_refl)) as HL.
  fold (regionsOf data) in HR. fold (provincesOf data) in HP.
  fold (lgusOf data) in HL.
  split; [|auto]. rewrite <- HR, <- HP, <- HL, !length_map.
  repeat split. unfold barangaysOf. rewrite length_map.
  rewrite <- (length_map barangayCode data). apply new_Set_size_le.
Qed.

Lemma stats_match_collections_witness :
  regions
    (stats (validation
              (finalState
                 (complete [rowFirst; rowSecond] [] (Some requiredColumns))
                 initialState))) =
  length (regionsOf [rowFirst; rowSecond]).
Proof.
  apply (stats_match_collections [rowFirst; rowSecond] []
           (Some requiredColumns) initialState).
  reflexivity.
Defined.

(** Rows that share a key give the same record. *)
Definition agree {V} (key : AddressRow -> string) (mkv : AddressRow -> V)
  (rows : list AddressRow) : Prop :=
  forall r1 r2, In r1 rows -> In r2 rows -> key r1 = key r2 ->
                mkv r1 = mkv r2.

Lemma dedup_agree {V} (code : V -> string) (key : AddressRow -> string)
  (mkv : AddressRow -> V) rows row :
  (forall row, code (mkv row) = key row) ->
  agree key mkv rows -> In row rows -> In (mkv row) (dedup key mkv rows).
Proof.
  intros Hc Ha Hin.
  pose proof (dedup_find code key mkv Hc rows (key row)) as F.
  destruct (find (fun r => String.eqb (key r) (key row)) (rev rows))
    as [r'|] eqn:E.
  - apply find_some in E. destruct E as [Hr' Hk].
    apply String.eqb_eq in Hk. apply in_rev in Hr'.
    simpl in F. apply find_some in F. destruct F as [F _].
    now rewrite (Ha row r' Hin Hr' (eq_sym Hk)).
  - exfalso. apply in_rev in Hin.
    pose proof (find_none _ _ E row Hin) as N. simpl in N.
    now rewrite String.eqb_refl in N.
Qed.

(** When the rows are consistent (rows with the same code carry the same
    name and parent code), which row decides a record does not matter: the
    record built from any row, the first with its code included, is in the
    collection. *)
Theorem consistent_codes_any_row (rows : list AddressRow) :
  (agree regionCode toRegion rows ->
   forall row, In row rows -> In (toRegion row) (regionsOf rows)) /\
  (agree provinceCode toProvince rows ->
   forall row, In row rows -> In (toProvince row) (provincesOf rows)) /\
  (agree lguCode toLgu rows ->
   forall row, In row rows -> In (toLgu row) (lgusOf rows)).
Proof.
  repeat split; intros Ha row Hin.
  - apply (dedup_agree Region.code regionCode toRegion); auto.
  - apply (dedup_agree Province.code provinceCode toProvince); auto.
  - apply (dedup_agree Lgu.code lguCode toLgu); auto.
Qed.

Lemma consistent_codes_any_row_witness :
  In (toRegion rowDupA) (regionsOf [rowDupA; rowDupB]).
Proof.
  apply (proj1 (consistent_codes_any_row [rowDupA; rowDupB])).
  - intros r1 r2 [<-|[<-|[]]] [<-|[<-|[]]] _; reflexivity.
  - left. reflexivity.
Defined.

(** ** From a parsed file to the upload *)

(** No required field of the row is empty. *)
Definition rowComplete (row : AddressRow) : Prop :=
  regionCode row <> "" /\ regionName row <> "" /\
  provinceCode row <> "" /\ provinceName row <> "" /\
  lguCode row <> "" /\ lguName row <> "" /\
  barangayCode row <> "" /\ barangayName row <> "".

Lemma eqb_empty_false s : (s =? "") = false <-> s <> "".
Proof. apply String.eqb_neq. Qed.

Lemma filter_nil_iff {A} (f : A -> bool) l :
  filter f l = [] <-> Forall (fun x => f x = false) l.
Proof.
  induction l as [|x l IH]; simpl.
  - split; [constructor | reflexivity].
  - rewrite Forall_cons_iff, <- IH. destruct (f x); split; intros H.
    + discriminate.
    + destruct H. discriminate.
    + auto.
    + tauto.
Qed.

Lemma emptyCols_nil row : emptyCols row = [] <-> rowComplete row.
Proof.
  unfold emptyCols, rowComplete, requiredColumns.
  rewrite filter_nil_iff, !Forall_cons_iff, Forall_nil_iff.
  cbn [getField falsy String.eqb Ascii.eqb Bool.eqb].
  rewrite !eqb_empty_false. tauto.
Qed.

Lemma violationsFrom_nil data index :
  violationsFrom data index = [] <-> Forall rowComplete data.
Proof.
  revert index. induction data as [|row rest IH]; intros index; simpl.
  - split; [constructor | reflexivity].
  - rewrite Forall_cons_iff, <- (IH (S index)), <- emptyCols_nil.
    unfold rowViolations. split.
    + intros H. apply app_eq_nil in H. destruct H as [H1 H2].
      apply map_eq_nil in H1. auto.
    + intros [H1 H2]. now rewrite H1, H2.
Qed.

Lemma complete_state data errs fields w :
  state (snd (complete data errs fields w)) =
  match missingColumnsOf fields with
  | [] =>
      mkAppState (mkParseResults data errs)
        (if (length (validationErrorsOf data) =? 0)%nat then idle else error)
        (mkValidation (length (validationErrorsOf data) =? 0)%nat
                      (validationErrorsOf data) (statsOf data))
  | _ :: _ =>
      mkAppState (parseResults (state w)) error
        (mkValidation false
           [("Missing required columns: "
               ++ join ", " (missingColumnsOf fields))%string]
           zeroStats)
  end.
Proof.
  unfold complete. destruct (missingColumnsOf fields); reflexivity.
Qed.

Lemma parseCSV_complete_state data errs fields st :
  finalState (parseCSV (PapaComplete data errs fields)) st =
  state (snd (complete data errs fields
                (mkWorld (withStatus validating st)
                         [EvSetUploadStatus validating]))).
Proof. reflexivity. Qed.

(** After a parse that completed, whatever was loaded before: the report
    is valid exactly when the header has all required columns and no row
    has an empty required field; the status is [idle] when it is valid and
    [error] otherwise; the rows kept are those of this file when the
    header is complete, and the old ones otherwise. *)
Theorem parse_valid_iff data errs fields st :
  let st' := finalState (parseCSV (PapaComplete data errs fields)) st in
  (valid (validation st') = true <->
   missingColumnsOf fields = [] /\ Forall rowComplete data) /\
  uploadStatus st' = (if valid (validation st') then idle else error) /\
  rows (parseResults st') =
    (if (length (missingColumnsOf fields) =? 0)%nat
     then data else rows (parseResults st)).
Proof.
  intros st'. unfold st'. rewrite parseCSV_complete_state, complete_state.
  destruct (missingColumnsOf fields) as [|c cs]; simpl.
  - rewrite validationErrorsOf_spec, Nat.eqb_eq, length_zero_iff_nil.
    rewrite violationsFrom_nil. repeat split; tauto.
  - split; [|split; reflexivity].
    split; [discriminate | intros [H0 _]; discriminate].
Qed.

Definition acceptable (data : list AddressRow) (fields : option (list string))
  : Prop :=
  missingColumnsOf fields = [] /\ data <> [] /\ Forall rowComplete data.

Lemma parse_guard data errs fields st :
  guardRejects (finalState (parseCSV (PapaComplete data errs fields)) st)
  = false <-> acceptable data fields.
Proof.
  unfold acceptable, guardRejects.
  rewrite parseCSV_complete_state, complete_state.
  destruct (missingColumnsOf fields) as [|c cs]; simpl.
  - rewrite orb_false_iff, negb_false_iff, Nat.eqb_eq, Nat.eqb_neq.
    rewrite validationErrorsOf_spec, !length_zero_iff_nil.
    rewrite violationsFrom_nil. tauto.
  - split; [discriminate | intros [H _]; discriminate].
Qed.

Lemma uploadData_success store st :
  noFailure store -> guardRejects st = false ->
  uploadStatus (finalState (uploadData store) st) = success.
Proof.
  intros Hs G. unfold finalState. rewrite uploadData_accepted by assumption.
  destruct (completes_clearAndInsert store Hs
              (regionsOf (rows (parseResults st)))
              (provincesOf (rows (parseResults st)))
              (lgusOf (rows (parseResults st)))
              (barangaysOf (rows (parseResults st)))
              (startWorld st)) as [a N].
  fold (load store st) in N.
  destruct (load store st (startWorld st)) as [c w]. simpl in N. subst c.
  reflexivity.
Qed.

(** After a parse that completed, whatever was loaded before, an upload
    either sends nothing and changes nothing (when the file lacks a
    column, has no row, or has an empty required field), or issues calls
    taken in order from the plan built from this file's rows alone: the
    four deletes, then the inserts of the collections extracted from
    them; with a store that does not fail the whole plan is issued and
    the status ends in [success]. *)
Theorem parse_then_upload store data errs fields st :
  let st' := finalState (parseCSV (PapaComplete data errs fields)) st in
  let cs := calls (trace (uploadData store) st') in
  let plan :=
    deletePlan ++ insertPlan (regionsOf data) (provincesOf data)
                             (lgusOf data) (barangaysOf data) in
  (acceptable data fields ->
   (exists rest, plan = cs ++ rest) /\
   (noFailure store ->
    cs = plan /\
    uploadStatus (finalState (uploadData store) st') = success)) /\
  (~ acceptable data fields ->
   cs = [] /\ finalState (uploadData store) st' = st').
Proof.
  intros st' cs plan. split.
  - intros Ha. pose proof Ha as G. apply (parse_guard data errs fields st) in G.
    fold st' in G.
    assert (Hp : planOf st' = plan).
    { unfold planOf. rewrite G. unfold st', plan.
      rewrite parseCSV_complete_state, complete_state.
      destruct Ha as [-> _]. reflexivity. }
    split.
    + rewrite <- Hp. apply uploadData_prefix.
    + intros Hs. split.
      * unfold cs. rewrite uploadData_noFailure by assumption. exact Hp.
      * now apply uploadData_success.
  - intros Hn. assert (G : guardRejects st' = true).
    { destruct (guardRejects st') eqn:G; [reflexivity|].
      apply parse_guard in G. contradiction. }
    unfold cs, trace, finalState. rewrite uploadData_rejected by assumption.
    auto.
Qed.

Lemma parse_then_upload_witness :
  calls (trace (uploadData okStore)
           (finalState (parseCSV (PapaComplete [rowNoName] []
                                    (Some requiredColumns)))
                       stateRow1)) = [].
Proof.
  apply (proj2 (parse_then_upload okStore [rowNoName] []
                  (Some requiredColumns) stateRow1)).
  intros [_ [_ H]]. inversion H as [|? ? Hr _]; subst.
  unfold rowComplete in Hr. simpl in Hr. tauto.
Defined.

(** [uploadData] does not look at the upload status: invoked while the
    status is [uploading], or anything else, it does what it does from any
    other status.  In particular a parser failure, which only sets the
    status, leaves the upload to act on the file parsed before it. *)
Theorem upload_ignores_status store st s message :
  trace (uploadData store) (withStatus s st) = trace (uploadData store) st /\
  trace (uploadData store) (finalState (parseCSV (PapaError message)) st) =
    trace (uploadData store) st.
Proof.
  assert (H : forall s', trace (uploadData store) (withStatus s' st) =
                         trace (uploadData store) st).
  { intros s'. unfold trace.
    destruct (guardRejects st) eqn:G.
    - rewrite !uploadData_rejected by exact G. reflexivity.
    - rewrite !uploadData_simulated by exact G. reflexivity. }
  split; [apply H|]. apply (H error).
Qed.

(** ** The page: file handling and what is rendered *)

(** The [File] of the browser, as far as the page reads it. *)
Record File := mkFile { fileName : string; fileSize : nat }.

(** The component state: [isDragging], [file], and the state and log
    modelled above. *)
Record Page := mkPage {
  isDragging : bool;
  file : option File;
  world : World
}.

Definition initialPage : Page := mkPage false None (mkWorld initialState []).

(** [String.prototype.endsWith]: some suffix of [s] is [suffix]. *)
Fixpoint endsWith (s suffix : string) : bool :=
  (s =? suffix)
  || match s with
     | EmptyString => false
     | String _ s' => endsWith s' suffix
     end.

Definition setFile (f : option File) (p : Page) : Page :=
  mkPage (isDragging p) f (world p).

Definition setIsDragging (b : bool) (p : Page) : Page :=
  mkPage b (file p) (world p).

(** Running a computation on the state and log of the page. *)
Definition inWorld (m : Eff unit) (p : Page) : Page :=
  mkPage (isDragging p) (file p) (snd (m (world p))).

(** [handleFile]; [papa] stands for what [Papa.parse] makes of a file. *)
Definition handleFile (papa : File -> PapaOutcome) (f : File) (p : Page)
  : Page :=
  if negb (endsWith (fileName f) ".csv")
  then inWorld (toast toast_error "Please upload a CSV file") p
  else inWorld (parseCSV (papa f)) (setFile (Some f) p).

Definition onDragOver (p : Page) : Page := setIsDragging true p.

Definition onDragLeave (p : Page) : Page := setIsDragging false p.

(** [onDrop], on [e.dataTransfer.files]. *)
Definition onDrop (papa : File -> PapaOutcome) (files : list File) (p : Page)
  : Page :=
  let p := setIsDragging false p in
  match files with
  | f :: _ => handleFile papa f p
  | [] => p
  end.

(** [handleFileInputChange], on [e.target.files] (possibly null). *)
Definition handleFileInputChange (papa : File -> PapaOutcome)
  (files : option (list File)) (p : Page) : Page :=
  match files with
  | Some (f :: _) => handleFile papa f p
  | _ => p
  end.

(** The click handler of the X button. *)
Definition clearFile (p : Page) : Page :=
  inWorld
    (setParseResults (mkParseResults [] []) ;;
     setValidation (mkValidation false [] zeroStats) ;;
     setUploadStatus idle)
    (setFile None p).

(** The list items of the red panel: the first ten errors and, when there
    are more, a line counting the rest. *)
Definition errorItems (errs : list string) : list string :=
  slice 0 10 errs ++
  (if (10 <? length errs)%nat
   then [("...and " ++ nat_to_string (length errs - 10) ++ " more errors")
           %string]
   else []).

(** What is shown under the file name. *)
Inductive Panel :=
| ValidatingPanel
| ValidPanel (s : Stats)
| ErrorPanel (items : list string)
| NoPanel.

Definition statusPanel (st : AppState) : Panel :=
  match uploadStatus st with
  | validating => ValidatingPanel
  | _ =>
      if valid (validation st) then ValidPanel (stats (validation st))
      else if (0 <? length (rows (parseResults st)))%nat
           then ErrorPanel (errorItems (errors (validation st)))
           else NoPanel
  end.

(** Nothing of this is rendered while no file is set. *)
Definition rendered (p : Page) : option Panel :=
  match file p with
  | None => None
  | Some _ => Some (statusPanel (state (world p)))
  end.

(** The [disabled] attribute of the upload button. *)
Definition uploadDisabled (st : AppState) : bool :=
  negb (valid (validation st))
  || match uploadStatus st with uploading => true | _ => false end.

Lemma endsWith_spec s suffix :
  endsWith s suffix = true <-> exists pre, s = (pre ++ suffix)%string.
Proof.
  induction s as [|a s IH]; cbn [endsWith].
  - rewrite orb_false_r, String.eqb_eq. split.
    + intros <-. now exists ""%string.
    + intros [[|b pre] E]; simpl in E; [assumption | discriminate].
  - rewrite orb_true_iff, String.eqb_eq, IH. split.
    + intros [<-|[pre ->]]; [now exists ""%string|].
      now exists (String a pre).
    + intros [[|b pre] E]; simpl in E; [now left|].
      injection E as <- ->. right. now exists pre.
Qed.

(** A dropped file whose name does not end in [.csv] (in this very case)
    is refused with a toast, and the page is then exactly the page before
    with [isDragging] set to [false] and the toast logged: the file, the
    rows, the report and the panel under the file name stay those of the
    file before it; only the first dropped file is looked at. *)
Theorem refused_file papa f others p :
  (forall pre, fileName f <> (pre ++ ".csv")%string) ->
  let p' := onDrop papa (f :: others) p in
  p' = mkPage false (file p)
         (mkWorld (state (world p))
                  (log (world p)
                     ++ [EvToast toast_error "Please upload a CSV file"])) /\
  isDragging p' = false /\
  file p' = file p /\
  state (world p') = state (world p) /\
  rendered p' = rendered p.
Proof.
  intros H p'. unfold p', onDrop, handleFile.
  destruct (endsWith (fileName f) ".csv") eqn:E.
  - apply endsWith_spec in E. destruct E as [pre E]. now apply H in E.
  - simpl. repeat split.
Qed.

(** A file named in upper case, dropped after a drag over the page. *)
Lemma refused_file_witness :
  onDrop (fun _ => PapaError "unused") [mkFile "DATA.CSV" 10]
         (onDragOver initialPage) =
  mkPage false None
         (mkWorld initialState
                  [EvToast toast_error "Please upload a CSV file"]).
Proof.
  apply (refused_file (fun _ => PapaError "unused") (mkFile "DATA.CSV" 10)
           [] (onDragOver initialPage)).
  intros pre E. apply (f_equal (fun s => endsWith s ".csv")) in E.
  rewrite (proj2 (endsWith_spec (pre ++ ".csv") ".csv")) in E by eauto.
  discriminate E.
Defined.

(** When the first file of a session (no rows parsed yet) lacks a
    required column, the message is stored in the report but no panel
    shows it: the red panel is rendered only when there are parsed rows,
    and this branch stores none.  With rows left from an earlier file the
    panel shows the one message. *)
Theorem missing_columns_panel papa f others data errs fields p :
  endsWith (fileName f) ".csv" = true ->
  papa f = PapaComplete data errs fields ->
  missingColumnsOf fields <> [] ->
  let p' := onDrop papa (f :: others) p in
  let msg := ("Missing required columns: "
                ++ join ", " (missingColumnsOf fields))%string in
  errors (validation (state (world p'))) = [msg] /\
  rendered p' =
    Some (if (0 <? length (rows (parseResults (state (world p)))))%nat
          then ErrorPanel [msg] else NoPanel) /\
  uploadDisabled (state (world p')) = true.
Proof.
  intros Hn Hp Hm p' msg. unfold p', onDrop, handleFile, rendered.
  rewrite Hn. cbn [negb inWorld setFile setIsDragging file world].
  rewrite Hp. unfold parseCSV, bind, setUploadStatus.
  cbn [fst snd state log]. rewrite complete_state. fold msg.
  destruct (missingColumnsOf fields) as [|c cs]; [congruence|].
  cbn. repeat split.
Qed.

Lemma missing_columns_panel_witness :
  rendered
    (onDrop (fun _ => PapaComplete [row1] [] (Some ["regionCode"]))
            [mkFile "a.csv" 10] initialPage) = Some NoPanel.
Proof.
  apply (missing_columns_panel
           (fun _ => PapaComplete [row1] [] (Some ["regionCode"]))
           (mkFile "a.csv" 10) [] [row1] [] (Some ["regionCode"])
           initialPage); [reflexivity | reflexivity | discriminate].
Defined.

(** A file with a complete header and no data row is shown as valid with
    all counts 0 and the upload button is enabled, but the upload only
    shows the error toast and contacts no store. *)
Theorem header_only_file store errs fields st :
  missingColumnsOf fields = [] ->
  let st' := finalState (parseCSV (PapaComplete [] errs fields)) st in
  statusPanel st' = ValidPanel zeroStats /\
  uploadDisabled st' = false /\
  trace (uploadData store) st' =
    [EvToast toast_error "Please upload a valid CSV file first"].
Proof.
  intros H st'. unfold st'. rewrite parseCSV_complete_state.
  assert (E : state (snd (complete [] errs fields
                            (mkWorld (withStatus validating st)
                                     [EvSetUploadStatus validating]))) =
              mkAppState (mkParseResults [] errs) idle
                         (mkValidation true [] zeroStats)).
  { rewrite complete_state, H. reflexivity. }
  rewrite E. split; [reflexivity|]. split; [reflexivity|].
  unfold trace. now rewrite uploadData_rejected.
Qed.

Lemma header_only_file_witness :
  statusPanel
    (finalState (parseCSV (PapaComplete [] [] (Some requiredColumns)))
                initialState) = ValidPanel zeroStats.
Proof.
  apply (header_only_file okStore [] (Some requiredColumns) initialState).
  reflexivity.
Defined.

Lemma errorItems_length l : length (errorItems l) <= 11.
Proof.
  unfold errorItems, slice. rewrite length_app, length_firstn. simpl skipn.
  destruct (10 <? length l)%nat; simpl length; lia.
Qed.

Lemma errorItems_firstn l : firstn 10 (errorItems l) = firstn 10 l.
Proof.
  unfold errorItems, slice. simpl skipn. change (10 - 0) with 10.
  destruct (10 <? length l)%nat eqn:E.
  - apply Nat.ltb_lt in E.
    rewrite firstn_app, firstn_firstn, length_firstn.
    replace (10 - Nat.min 10 (length l)) with 0 by lia.
    now rewrite app_nil_r.
  - now rewrite app_nil_r, firstn_firstn.
Qed.

Lemma errorItems_short l : length l <= 10 -> errorItems l = l.
Proof.
  intros H. unfold errorItems, slice. simpl skipn. change (10 - 0) with 10.
  rewrite firstn_all2 by assumption.
  apply Nat.ltb_ge in H. rewrite H. apply app_nil_r.
Qed.

Lemma errorItems_long l :
  10 < length l ->
  errorItems l =
  firstn 10 l ++
  [("...and " ++ nat_to_string (length l - 10) ++ " more errors")%string].
Proof.
  intros H. unfold errorItems, slice. simpl skipn. change (10 - 0) with 10.
  apply Nat.ltb_lt in H. now rewrite H.
Qed.

(** When the header is complete and some row has an empty required field,
    the red panel is shown: with up to ten messages in the report it
    lists them as they are; with more than ten it lists the first ten
    followed by the one line ["...and N more errors"], N being the number
    of messages beyond ten.  The report itself keeps every message, and
    the upload button is disabled. *)
Theorem error_panel_capped data errs fields st :
  missingColumnsOf fields = [] ->
  ~ Forall rowComplete data ->
  let st' := finalState (parseCSV (PapaComplete data errs fields)) st in
  let all := errors (validation st') in
  all = validationErrorsOf data /\
  exists items,
    statusPanel st' = ErrorPanel items /\
    length items <= 11 /\
    firstn 10 items = firstn 10 all /\
    (length all <= 10 -> items = all) /\
    (10 < length all ->
     items =
     firstn 10 all ++
     [("...and " ++ nat_to_string (length all - 10) ++ " more errors")
        %string]) /\
    uploadDisabled st' = true.
Proof.
  intros Hm Hr st' all. unfold all, st'.
  rewrite parseCSV_complete_state, complete_state, Hm.
  cbn [validation errors]. split; [reflexivity|].
  exists (errorItems (validationErrorsOf data)).
  assert (Hv : (length (validationErrorsOf data) =? 0)%nat = false).
  { apply Nat.eqb_neq. rewrite length_zero_iff_nil, validationErrorsOf_spec.
    now rewrite violationsFrom_nil. }
  assert (Hd : (0 <? length data)%nat = true).
  { destruct data; [exfalso; apply Hr; constructor | reflexivity]. }
  unfold statusPanel, uploadDisabled.
  cbn [uploadStatus validation valid errors parseResults rows].
  rewrite Hv, Hd. split; [reflexivity|].
  split; [apply errorItems_length|].
  split; [apply errorItems_firstn|].
  split; [apply errorItems_short|].
  split; [apply errorItems_long | reflexivity].
Qed.

Definition rowEmpty : AddressRow := mkAddressRow "" "" "" "" "" "" "" "".

(** Two rows without any value: sixteen messages, ten shown and six
    counted. *)
Lemma error_panel_capped_witness :
  statusPanel
    (finalState (parseCSV (PapaComplete [rowEmpty; rowEmpty] []
                             (Some requiredColumns)))
                initialState) =
  ErrorPanel
    ["Row 2: Missing value for regionCode";
     "Row 2: Missing value for regionName";
     "Row 2: Missing value for provinceCode";
     "Row 2: Missing value for provinceName";
     "Row 2: Missing value for lguCode";
     "Row 2: Missing value for lguName";
     "Row 2: Missing value for barangayCode";
     "Row 2: Missing value for barangayName";
     "Row 3: Missing value for regionCode";
     "Row 3: Missing value for regionName";
     "...and 6 more errors"].
Proof.
  assert (Hr : ~ Forall rowComplete [rowEmpty; rowEmpty]).
  { intros H. inversion H as [|? ? Hc _]; subst.
    unfold rowComplete in Hc. simpl in Hc. tauto. }
  destruct (error_panel_capped [rowEmpty; rowEmpty] []
              (Some requiredColumns) initialState eq_refl Hr)
    as [_ [items [-> [_ [_ [_ [H _]]]]]]].
  rewrite H; [reflexivity | vm_compute; lia].
Defined.

Lemma parse_valid_iff_witness :
  valid (validation
           (finalState (parseCSV (PapaComplete [row1] []
                                    (Some requiredColumns)))
                       initialState)) = true.
Proof.
  apply (proj1 (parse_valid_iff [row1] [] (Some requiredColumns)
                  initialState)).
  split; [reflexivity|]. repeat constructor; discriminate.
Defined.

(** ** The results of the deletes are never read *)

(** The same store, with the errors that deletes resolve with erased. *)
Definition forgetDeleteErrors (store : Store) : Store :=
  fun h c =>
    match c, store h c with
    | Delete _, Resolved _ => Resolved None
    | _, r => r
    end.

Lemma stepThrows_forget store h c :
  stepThrows (c, prefixAt h c) (forgetDeleteErrors store h c) =
  stepThrows (c, prefixAt h c) (store h c).
Proof.
  unfold forgetDeleteErrors.
  destruct c; destruct (store h _) as [[m|]|e]; reflexivity.
Qed.

Lemma simulate_forget store plan h :
  wellPrefixed h plan ->
  map fst (fst (simulate (forgetDeleteErrors store) h plan)) =
    map fst (fst (simulate store h plan)) /\
  snd (simulate (forgetDeleteErrors store) h plan) =
    snd (simulate store h plan).
Proof.
  revert h. induction plan as [|[c p] plan IH]; intros h Hw;
    [split; reflexivity|].
  simpl in Hw. destruct Hw as [Hp Hw]. subst p.
  destruct (IH _ Hw) as [IH1 IH2].
  simpl. rewrite stepThrows_forget.
  destruct (stepThrows (c, prefixAt h c) (store h c)); simpl;
    [split; reflexivity|].
  split; [now rewrite IH1 | exact IH2].
Qed.

(** What the deletes resolve with has no influence on an upload: with the
    errors of the deletes erased from the store's answers, the same calls
    are issued and the same state is reached. *)
Theorem delete_errors_unread store st :
  calls (trace (uploadData (forgetDeleteErrors store)) st) =
    calls (trace (uploadData store) st) /\
  finalState (uploadData (forgetDeleteErrors store)) st =
    finalState (uploadData store) st.
Proof.
  unfold trace, finalState. destruct (guardRejects st) eqn:G.
  - rewrite !uploadData_rejected by assumption. auto.
  - rewrite !uploadData_simulated by assumption. cbn [snd state log].
    destruct (simulate_forget store (stepsOf st) []
                (wellPrefixed_stepsOf st)) as [H1 H2].
    rewrite !calls_app, !calls_toEvent, !calls_reportEvents, H1, H2. auto.
Qed.
